(** * EventProxy: the event dispatcher of [src/events/eventproxy.js]

    A shallow embedding of the dispatcher and the properties of its
    registration, removal and firing operations.

    The JavaScript heap is explicit.  Three kinds of objects occur in the
    source: arrays of listeners, plain objects used as maps from event
    names to arrays ([this._callbacks]), and the dispatcher instances
    themselves.  Each kind has a store of its own, addressed by allocation
    order; an array or a map that has been replaced stays in the store, as
    it does in JavaScript while somebody still holds a reference to it (the
    [list] and [calls] variables of a running [trigger]).

    A plain object is modelled by its own properties only (a [gmap]); names
    inherited from [Object.prototype] are outside the model. *)

From stdpp Require Import base option list strings gmap fin_maps.

(** ** Values *)

(** A function value is known by its identity: [===] on functions compares
    references. Locations index the stores. *)
Abbreviation cb := nat (only parsing).
Abbreviation loc := nat (only parsing).

(** An element of a listener array: a function, or [null] once removed. *)
Abbreviation slot := (option nat) (only parsing).

(** Arguments that travel through [trigger]. *)
Inductive value :=
| VUndefined
| VNum (n : Z)
| VStr (s : string)
| VFun (f : cb).

(** What a method call evaluates to: [undefined] or a reference to a
    dispatcher. *)
Inductive jsval :=
| JUndefined
| JObj (l : loc).

Global Instance value_eq_dec : EqDecision value.
Proof. solve_decision. Defined.
Global Instance jsval_eq_dec : EqDecision jsval.
Proof. solve_decision. Defined.

(** ** The store *)

(** An instance: the two fields the constructor sets. A field that was never
    assigned reads as [undefined] ([None]). *)
Record proxy := Proxy {
  _callbacks : option loc;
  _fired : option loc
}.

Record Store := mkStore {
  arrays : list (list slot);
  tables : list (gmap string loc);
  proxies : list proxy;
  invoked : list (cb * list value)
}.

(** [invoked] is the history of [callback.apply(this, args)], oldest first.
    It is how the model observes which functions ran, in which order and on
    which arguments. *)

Definition empty_store : Store := mkStore [] [] [] [].

Definition arr (st : Store) (a : loc) : list slot :=
  default [] (arrays st !! a).

Definition table (st : Store) (t : loc) : gmap string loc :=
  default ∅ (tables st !! t).

Definition set_array (a : loc) (l : list slot) (st : Store) : Store :=
  mkStore (<[a := l]> (arrays st)) (tables st) (proxies st) (invoked st).

Definition set_table (t : loc) (m : gmap string loc) (st : Store) : Store :=
  mkStore (arrays st) (<[t := m]> (tables st)) (proxies st) (invoked st).

Definition set_proxy (p : loc) (o : proxy) (st : Store) : Store :=
  mkStore (arrays st) (tables st) (<[p := o]> (proxies st)) (invoked st).

(** [[]] *)
Definition alloc_array (l : list slot) (st : Store) : loc * Store :=
  (length (arrays st),
   mkStore (arrays st ++ [l]) (tables st) (proxies st) (invoked st)).

(** [{}] *)
Definition alloc_table (m : gmap string loc) (st : Store) : loc * Store :=
  (length (tables st),
   mkStore (arrays st) (tables st ++ [m]) (proxies st) (invoked st)).

Definition alloc_proxy (o : proxy) (st : Store) : loc * Store :=
  (length (proxies st),
   mkStore (arrays st) (tables st) (proxies st ++ [o]) (invoked st)).

Definition record_call (callback : cb) (args : list value) (st : Store) : Store :=
  mkStore (arrays st) (tables st) (proxies st) (invoked st ++ [(callback, args)]).

(** [this._callbacks] *)
Definition get_callbacks (this : loc) (st : Store) : option loc :=
  match proxies st !! this with
  | Some o => _callbacks o
  | None => None
  end.

(** ** Outcomes *)

Inductive outcome :=
| Returns (v : jsval) (st : Store)
| Throws (st : Store)
| OutOfFuel.

(** ** The constants of the module *)

Definition ALL_EVENT : string := "__all__".

(** Modelled from the spec: the logging helper [debug] is called by the
    source but declared nowhere in it.  The spec gives the registration and
    removal operations no error condition and no effect besides the
    registration mapping, so a call to [debug] returns and leaves the store
    as it is. *)
Definition debug (fmt : string) (arg : option string) (st : Store) : Store := st.

(** ** The constructor *)

(** What [this] is bound to when the constructor body runs: an object made
    by [new EventProxy] (so [this instanceof EventProxy] holds), or anything
    else (a plain call). *)
Inductive this_binding :=
| ThisInstance (l : loc)
| ThisOther.

(** [new F()]: a fresh object is allocated, [F] runs on it, and the object is
    the result unless [F] returns an object itself. *)
Definition js_new (F : this_binding → Store → outcome) (st : Store) : outcome :=
  let '(l, st) := alloc_proxy (Proxy None None) st in
  match F (ThisInstance l) st with
  | Returns JUndefined st => Returns (JObj l) st
  | o => o
  end.

(** [EventProxy]: lines 40-46. The function calls itself through [new] at
    most once; [fuel] bounds that recursion. *)
Fixpoint EventProxy (fuel : nat) (this : this_binding) (st : Store) : outcome :=
  match fuel with
  | 0 => OutOfFuel
  | S fuel =>
      match this with
      | ThisOther =>
          (* if (!(this instanceof EventProxy)) return new EventProxy(); *)
          js_new (EventProxy fuel) st
      | ThisInstance l =>
          match proxies st !! l with
          | None => Throws st
          | Some o =>
              (* this._callbacks = {}; *)
              let '(t, st) := alloc_table ∅ st in
              let st := set_proxy l (Proxy (Some t) (_fired o)) st in
              (* this._fired = {}; *)
              let '(f, st) := alloc_table ∅ st in
              let st := set_proxy l (Proxy (Some t) (Some f)) st in
              Returns JUndefined st
          end
      end
  end.

(** ** Registration *)

(** [addListener]: lines 61-66. *)
Definition addListener (this : loc) (ev : string) (callback : cb) (st : Store)
  : outcome :=
  let st := debug "Add listener for %s" (Some ev) st in
  match get_callbacks this st with
  | None => Throws st
  | Some t =>
      (* this._callbacks[ev] = this._callbacks[ev] || []; *)
      let '(a, st) := match table st t !! ev with
                      | Some a => (a, st)
                      | None => alloc_array [] st
                      end in
      let st := set_table t (<[ev := a]> (table st t)) st in
      (* this._callbacks[ev].push(callback); *)
      let st := set_array a (arr st a ++ [Some callback]) st in
      Returns (JObj this) st
  end.

Definition bind := addListener.

(** [headbind]: lines 85-90. *)
Definition headbind (this : loc) (ev : string) (callback : cb) (st : Store)
  : outcome :=
  let st := debug "Add listener for %s" (Some ev) st in
  match get_callbacks this st with
  | None => Throws st
  | Some t =>
      let '(a, st) := match table st t !! ev with
                      | Some a => (a, st)
                      | None => alloc_array [] st
                      end in
      let st := set_table t (<[ev := a]> (table st t)) st in
      (* this._callbacks[ev].unshift(callback); *)
      let st := set_array a (Some callback :: arr st a) st in
      Returns (JObj this) st
  end.

(** ** Removal *)

(** The loop of lines 112-118, on the contents of the array [list]:
    [for (var i = 0; i < l; i++) if (callback === list[i]) list[i] = null].
    [n] counts the iterations left, [l - i]. *)
Fixpoint remove_loop (callback : cb) (n i : nat) (lst : list slot) : list slot :=
  match n with
  | 0 => lst
  | S n =>
      let lst :=
        if decide (lst !! i = Some (Some callback))
        then <[i := None]> lst
        else lst in
      remove_loop callback n (S i) lst
  end.

(** [removeListener]: lines 100-123. An omitted argument is [None]. The
    tests are [!eventname] and [!callback]: the empty string is falsy, a
    function never is. *)
Definition removeListener (this : loc) (eventname : option string)
    (callback : option cb) (st : Store) : outcome :=
  match proxies st !! this with
  | None => Throws st
  | Some o =>
      let calls := _callbacks o in
      match eventname with
      | None | Some "" =>
          let st := debug "Remove all listeners" None st in
          (* this._callbacks = {}; *)
          let '(t, st) := alloc_table ∅ st in
          Returns (JObj this) (set_proxy this (Proxy (Some t) (_fired o)) st)
      | Some eventname =>
          match callback with
          | None =>
              let st := debug "Remove all listeners of %s" (Some eventname) st in
              (* calls[eventname] = []; *)
              match calls with
              | None => Throws st
              | Some t =>
                  let '(a, st) := alloc_array [] st in
                  Returns (JObj this)
                    (set_table t (<[eventname := a]> (table st t)) st)
              end
          | Some callback =>
              match calls with
              | None => Throws st
              | Some t =>
                  match table st t !! eventname with
                  | None => Returns (JObj this) st
                  | Some a =>
                      let lst := arr st a in
                      let l := length lst in
                      Returns (JObj this)
                        (set_array a (remove_loop callback l 0 lst) st)
                  end
              end
          end
      end
  end.

Definition unbind := removeListener.

(** [removeAllListeners]: lines 134-136. *)
Definition removeAllListeners (this : loc) (event : option string) (st : Store)
  : outcome :=
  unbind this event None st.

(** [bindForAll] and [unbindForAll]: lines 141-150. Neither has a [return]
    statement: the value of the call is [undefined]. *)
Definition bindForAll (this : loc) (callback : cb) (st : Store) : outcome :=
  match bind this ALL_EVENT callback st with
  | Returns _ st => Returns JUndefined st
  | o => o
  end.

Definition unbindForAll (this : loc) (callback : option cb) (st : Store)
  : outcome :=
  match unbind this (Some ALL_EVENT) callback st with
  | Returns _ st => Returns JUndefined st
  | o => o
  end.

(** ** Firing *)

(** What a listener does when it runs is code outside the dispatcher. As far
    as the dispatcher is concerned it is a sequence of calls back into the
    methods of [this], possibly ended by an exception. *)
Inductive action :=
| CallAddListener (ev : string) (callback : cb)
| CallHeadbind (ev : string) (callback : cb)
| CallRemoveListener (eventname : option string) (callback : option cb)
| CallRemoveAllListeners (event : option string)
| CallBindForAll (callback : cb)
| CallUnbindForAll (callback : option cb)
| CallTrigger (eventname : string) (data : list value)
| ThrowError.

Global Instance action_eq_dec : EqDecision action.
Proof. solve_decision. Defined.

(** [list.splice(i, 1)] on the array at [a]: nothing happens when [i] is past
    the end. *)
Definition splice1 (a : loc) (i : nat) (st : Store) : Store :=
  set_array a (delete i (arr st a)) st.

Section Dispatch.

(** The body of each function, given the arguments of the call. *)
Variable body : cb → list value → list action.

Section WithTrigger.

(** [this.trigger], as seen from inside a listener. *)
Variable trig : loc → string → list value → Store → outcome.

Definition run_action (this : loc) (act : action) (st : Store) : outcome :=
  match act with
  | CallAddListener ev c => addListener this ev c st
  | CallHeadbind ev c => headbind this ev c st
  | CallRemoveListener e c => removeListener this e c st
  | CallRemoveAllListeners e => removeAllListeners this e st
  | CallBindForAll c => bindForAll this c st
  | CallUnbindForAll c => unbindForAll this c st
  | CallTrigger e data => trig this e data st
  | ThrowError => Throws st
  end.

Fixpoint run_body (this : loc) (acts : list action) (st : Store) : outcome :=
  match acts with
  | [] => Returns JUndefined st
  | act :: acts =>
      match run_action this act st with
      | Returns _ st => run_body this acts st
      | o => o
      end
  end.

(** [callback.apply(this, args)] *)
Definition apply (callback : cb) (this : loc) (args : list value) (st : Store)
  : outcome :=
  run_body this (body callback args) (record_call callback args st).

(** The [for] loop of lines 167-181 over the array [list], which is at
    [lst] in the store. [todo] is [l - i], the number of iterations left:
    [l] is read once, before the loop. An iteration that finds a falsy
    element at [i] (a [null], or nothing at all when the array has become
    shorter than [l]) splices at [i] and decrements both [i] and [l]; with
    the [i++] of the loop header [i] stays where it is and [l - i] goes
    down by one. Line 169 of the source lacks the [;] between the call to
    [splice] and the block of the two decrements; they are read as
    consecutive statements. *)
Fixpoint for_loop (this : loc) (lst : loc) (both : nat)
    (arguments : list value) (todo i : nat) (st : Store) : outcome :=
  match todo with
  | 0 => Returns JUndefined st
  | S todo =>
      match arr st lst !! i with
      | Some (Some callback) =>
          (* var start = both ? 1 : 0; args = arguments[start..] *)
          let start := if decide (both = 0) then 0 else 1 in
          let args := drop start arguments in
          match apply callback this args st with
          | Returns _ st => for_loop this lst both arguments todo (S i) st
          | o => o
          end
      | _ =>
          for_loop this lst both arguments todo i (splice1 lst i st)
      end
  end.

(** The same loop with the two counters of the source, [i] and [l], every
    statement in its place. [for_loop_counters_start] shows that it is the
    loop above. [gas] bounds the number of iterations, and [l - i] of them
    are enough. *)
Fixpoint for_loop_counters (this : loc) (lst : loc) (both : nat)
    (arguments : list value) (gas : nat) (i l : Z) (st : Store) : outcome :=
  (* i < l *)
  if bool_decide (i < l)%Z then
    match gas with
    | 0 => OutOfFuel
    | S gas =>
        (* if (!(callback = list[i])) *)
        match arr st lst !! Z.to_nat i with
        | Some (Some callback) =>
            let start := if decide (both = 0) then 0 else 1 in
            let args := drop start arguments in
            match apply callback this args st with
            | Returns _ st =>
                (* i++ *)
                for_loop_counters this lst both arguments gas (i + 1)%Z l st
            | o => o
            end
        | _ =>
            (* list.splice(i, 1); i--; l--; *)
            let st := splice1 lst (Z.to_nat i) st in
            let i := (i - 1)%Z in
            let l := (l - 1)%Z in
            (* i++ *)
            for_loop_counters this lst both arguments gas (i + 1)%Z l st
        end
    end
  else Returns JUndefined st.

(** The [while (both--)] loop of lines 163-183. The argument is the
    value of [both] when the test is evaluated. *)
Fixpoint while_loop (this : loc) (calls : loc) (eventname : string)
    (arguments : list value) (both : nat) (st : Store) : outcome :=
  match both with
  | 0 => Returns JUndefined st
  | S both =>
      (* ev = both ? eventname : ALL_EVENT; *)
      let ev := if decide (both = 0) then ALL_EVENT else eventname in
      (* list = calls[ev]; *)
      match table st calls !! ev with
      | None => while_loop this calls eventname arguments both st
      | Some lst =>
          let l := length (arr st lst) in
          match for_loop this lst both arguments l 0 st with
          | Returns _ st => while_loop this calls eventname arguments both st
          | o => o
          end
      end
  end.

End WithTrigger.

(** [trigger]: lines 159-185. [fuel] bounds the depth of nested calls to
    [trigger] made by listeners. *)
Fixpoint trigger (fuel : nat) (this : loc) (eventname : string)
    (data : list value) (st : Store) : outcome :=
  match fuel with
  | 0 => OutOfFuel
  | S fuel =>
      let arguments := VStr eventname :: data in
      (* var calls = this._callbacks; *)
      match get_callbacks this st with
      | None => Throws st
      | Some calls =>
          match while_loop (trigger fuel) this calls eventname arguments 2 st with
          | Returns _ st => Returns (JObj this) st
          | o => o
          end
      end
  end.

Definition emit := trigger.
Definition fire := trigger.

End Dispatch.

(** * Views of the store *)

(** The registration mapping of a dispatcher: event name to the contents of
    its listener array. *)
Definition registrations (this : loc) (st : Store) : gmap string (list slot) :=
  match get_callbacks this st with
  | Some t => arr st <$> table st t
  | None => ∅
  end.

(** The listener list of one event; an event without a list has no
    listeners. *)
Definition listeners (this : loc) (ev : string) (st : Store) : list slot :=
  default [] (registrations this st !! ev).

(** The functions of a list, in order, tombstones left out. *)
Definition actives (l : list slot) : list cb := omap id l.

(** A list without its tombstones. *)
Definition compact (l : list slot) : list slot := Some <$> actives l.

(** A list with every occurrence of [callback] turned into a tombstone. *)
Definition tombstone (callback : cb) (l : list slot) : list slot :=
  (λ s, if decide (s = Some callback) then None else s) <$> l.

(** The store with the invocations [l] added to its history. *)
Definition record_calls (l : list (cb * list value)) (st : Store) : Store :=
  mkStore (arrays st) (tables st) (proxies st) (invoked st ++ l).

(** The store of an outcome, when there is one. *)
Definition final_store (o : outcome) : option Store :=
  match o with
  | Returns _ st | Throws st => Some st
  | OutOfFuel => None
  end.

(** ** Well-formed dispatchers *)

(** The dispatcher at [this] has a map, the map refers to allocated arrays
    only, and no array is listed under two names. Every store built with
    the constructor and the methods is of this kind. *)
Definition wf (this : loc) (st : Store) : bool :=
  match get_callbacks this st with
  | Some t =>
      bool_decide (t < length (tables st))
      && bool_decide (map_Forall (λ _ a, a < length (arrays st)) (table st t))
      && bool_decide (NoDup (map_to_list (table st t)).*2)
  | None => false
  end.

(** The same, as a proposition, [t] being the map of the dispatcher. *)
Record Wf (this : loc) (st : Store) (t : loc) : Prop := {
  wf_callbacks : get_callbacks this st = Some t;
  wf_table : t < length (tables st);
  wf_arrays : ∀ ev a, table st t !! ev = Some a → a < length (arrays st);
  wf_inj : ∀ e1 e2 a,
      table st t !! e1 = Some a → table st t !! e2 = Some a → e1 = e2
}.

(** An operation on the store that keeps the dispatcher at [this] well
    formed, whether it returns or throws. *)
Definition keeps_wf (this : loc) (f : Store → outcome) : Prop :=
  ∀ st st', wf this st = true → final_store (f st) = Some st' →
            wf this st' = true.

(** ** Operations used to state the theorems *)

(** [this._callbacks[ev] = this._callbacks[ev] || []], the statement that
    [addListener] and [headbind] share. *)
Definition ensure_list (t : loc) (ev : string) (st : Store) : loc * Store :=
  let '(a, st) := match table st t !! ev with
                  | Some a => (a, st)
                  | None => alloc_array [] st
                  end in
  (a, set_table t (<[ev := a]> (table st t)) st).

(** The arguments a listener receives in the pass numbered [both]. *)
Definition pass_args (both : nat) (arguments : list value) : list value :=
  drop (if decide (both = 0) then 0 else 1) arguments.

(** The store after one quiet pass over the list of [e]. *)
Definition after_pass (t : loc) (e : string) (args : list value) (st : Store)
  : Store :=
  match table st t !! e with
  | Some a =>
      record_calls ((λ c, (c, args)) <$> actives (arr st a))
        (set_array a (compact (arr st a)) st)
  | None => st
  end.

(** The functions of [l], called on [args], return without calling back
    into the dispatcher and without throwing: a pass over [l] is completed,
    non-reentrant and non-throwing. *)
Definition quiet (body : cb → list value → list action) (args : list value)
    (l : list slot) : Prop :=
  ∀ c, Some c ∈ l → body c args = [].





(** Number of occurrences of [c]. *)
Definition occurrences (c : cb) (l : list cb) : nat :=
  length (filter (λ x, x = c) l).



(** The dispatcher [new EventProxy()] makes. *)
Definition fresh_dispatcher (st : Store) : Store :=
  mkStore (arrays st) (tables st ++ [∅; ∅])
    (proxies st
       ++ [Proxy (Some (length (tables st))) (Some (S (length (tables st))))])
    (invoked st).

(** ** A dispatcher to run the theorems on *)

(** One dispatcher, at 0. ["done"] has two listeners around a tombstone,
    the wildcard channel has one, ["idle"] has an empty list. *)
Definition demo_store : Store :=
  mkStore
    [[Some 1; None; Some 2]; [Some 3]; []]
    [<["idle" := 2]> (<[ALL_EVENT := 1]> (<["done" := 0]> ∅)); ∅]
    [Proxy (Some 0) (Some 1)]
    [].

(** Listeners that do nothing. *)
Definition quiet_body : cb → list value → list action := λ _ _, [].

(** Listener 1 unregisters itself from ["done"], listener 2 unregisters
    listener 1; the others do nothing. *)
Definition removing_body : cb → list value → list action :=
  λ c _,
    match c with
    | 1 => [CallRemoveListener (Some "done") (Some 1)]
    | 2 => [CallRemoveListener (Some "done") (Some 1)]
    | _ => []
    end.

(** ** Programs that use the dispatcher *)







(** Listener 1 fires ["done"] again from inside its own invocation. *)
Definition refiring_body : cb → list value → list action :=
  λ c args,
    match c with
    | 1 => [CallTrigger "done" args]
    | _ => []
    end.

(** Listener 1 registers listener 7 for ["done"], listener 2 registers
    listener 8 on the wildcard channel. *)
Definition registering_body : cb → list value → list action :=
  λ c _,
    match c with
    | 1 => [CallAddListener "done" 7]
    | 2 => [CallBindForAll 8]
    | _ => []
    end.

(** Listener 1 registers listener 7 at the head of ["done"]. *)
Definition headbinding_body : cb → list value → list action :=
  λ c _,
    match c with
    | 1 => [CallHeadbind "done" 7]
    | _ => []
    end.

(** Listener 1 removes all the listeners of ["done"], listener 2 resets the
    dispatcher. *)
Definition clearing_body : cb → list value → list action :=
  λ c _,
    match c with
    | 1 => [CallRemoveAllListeners (Some "done")]
    | 2 => [CallRemoveListener None None]
    | _ => []
    end.



(** The dispatcher at [that], whose map was at [tq] in [st0], is out of the
    reach of the dispatcher at [this] in [st]: they are two objects, the map
    of [this] is not [tq], the object [that], its map and the arrays of its
    map are in [st] what they were in [st0], and no other map of the store
    refers to one of these arrays. *)
Record apart (this that tq : loc) (st0 st : Store) : Prop := {
  apart_ne : this ≠ that;
  apart_callbacks : get_callbacks this st ≠ Some tq;
  apart_that : proxies st !! that = proxies st0 !! that;
  apart_table_len : tq < length (tables st);
  apart_table : tables st !! tq = tables st0 !! tq;
  apart_arrays : ∀ e a, table st0 tq !! e = Some a →
      a < length (arrays st) ∧ arrays st !! a = arrays st0 !! a;
  apart_others : ∀ t e a e', t ≠ tq → table st t !! e = Some a →
      table st0 tq !! e' ≠ Some a
}.

(** An operation of the dispatcher at [this] that leaves [that] out of
    reach, whether it returns or throws. *)
Definition keeps_apart (this that tq : loc) (st0 : Store) (f : Store → outcome)
  : Prop :=
  ∀ st st', wf this st = true → apart this that tq st0 st →
            final_store (f st) = Some st' → apart this that tq st0 st'.

(** Two dispatchers: the one at 0 has its map at 0 and listener 1 under
    ["a"], the one at 1 has its map at 2 and listener 2 under ["a"]. *)
Definition two_dispatchers : Store :=
  mkStore [[Some 1]; [Some 2]]
    [{["a" := 0]}; ∅; {["a" := 1]}; ∅]
    [Proxy (Some 0) (Some 1); Proxy (Some 2) (Some 3)]
    [].

(** Listener 1 does a bit of everything to its own dispatcher. *)
Definition busy_body : cb → list value → list action :=
  λ c _,
    match c with
    | 1 => [CallAddListener "b" 5; CallHeadbind "a" 6;
            CallRemoveListener (Some "a") (Some 1);
            CallRemoveAllListeners (Some "b"); CallBindForAll 7;
            CallRemoveListener None None; CallAddListener "a" 8]
    | _ => []
    end.

(** * Store lemmas *)

Lemma store_eta st :
  mkStore (arrays st) (tables st) (proxies st) (invoked st) = st.
Proof. by destruct st. Qed.

Lemma arr_lookup st a l : arrays st !! a = Some l → arr st a = l.
Proof. unfold arr. by intros ->. Qed.

Lemma arr_in_range st a : a < length (arrays st) → arrays st !! a = Some (arr st a).
Proof.
  intros [l Hl]%lookup_lt_is_Some_2. by rewrite (arr_lookup _ _ _ Hl).
Qed.

Lemma arr_set_array_eq st a l :
  a < length (arrays st) → arr (set_array a l st) a = l.
Proof. intros H. apply arr_lookup. simpl. by apply list_lookup_insert_eq. Qed.

Lemma arr_set_array_ne st a b l :
  a ≠ b → arr (set_array a l st) b = arr st b.
Proof. intros H. unfold arr. simpl. by rewrite list_lookup_insert_ne. Qed.

Lemma set_array_id st a : set_array a (arr st a) st = st.
Proof.
  unfold set_array, arr. destruct (arrays st !! a) as [l|] eqn:E; simpl.
  - rewrite list_insert_id by done. apply store_eta.
  - rewrite list_insert_ge; [apply store_eta|]. by apply lookup_ge_None.
Qed.

Lemma set_array_set_array st a l1 l2 :
  set_array a l2 (set_array a l1 st) = set_array a l2 st.
Proof. unfold set_array. simpl. by rewrite list_insert_insert_eq. Qed.

Lemma arr_alloc_array_old st l b :
  b < length (arrays st) → arr (alloc_array l st).2 b = arr st b.
Proof. intros H. unfold arr. simpl. by rewrite lookup_app_l. Qed.

Lemma arr_alloc_array_new st l :
  arr (alloc_array l st).2 (length (arrays st)) = l.
Proof.
  apply arr_lookup. simpl. rewrite lookup_app_r by done.
  by rewrite Nat.sub_diag.
Qed.

Lemma table_lookup st t m : tables st !! t = Some m → table st t = m.
Proof. unfold table. by intros ->. Qed.

Lemma table_set_table_eq st t m :
  t < length (tables st) → table (set_table t m st) t = m.
Proof. intros H. apply table_lookup. simpl. by apply list_lookup_insert_eq. Qed.

Lemma set_table_id st t : set_table t (table st t) st = st.
Proof.
  unfold set_table, table. destruct (tables st !! t) as [m|] eqn:E; simpl.
  - rewrite list_insert_id by done. apply store_eta.
  - rewrite list_insert_ge; [apply store_eta|]. by apply lookup_ge_None.
Qed.

Lemma NoDup_snd_inj (m : gmap string nat) e1 e2 a :
  NoDup (map_to_list m).*2 → m !! e1 = Some a → m !! e2 = Some a → e1 = e2.
Proof.
  intros Hnd H1%elem_of_map_to_list H2%elem_of_map_to_list.
  apply list_elem_of_lookup in H1 as [i Hi], H2 as [j Hj].
  assert (i = j) as ->.
  { eapply NoDup_lookup; [exact Hnd| |]; rewrite list_lookup_fmap.
    - by rewrite Hi.
    - by rewrite Hj. }
  congruence.
Qed.

Lemma wf_Wf this st : wf this st = true → ∃ t, Wf this st t.
Proof.
  unfold wf. destruct (get_callbacks this st) as [t|] eqn:E; [|done].
  intros [[H1 H2]%andb_prop H3]%andb_prop.
  apply bool_decide_eq_true in H1, H2, H3.
  exists t. split; [done | done | |].
  - intros ev a Ha. by apply (H2 ev a).
  - intros e1 e2 a. by apply NoDup_snd_inj.
Qed.


Lemma actives_compact l : actives (compact l) = actives l.
Proof.
  unfold compact, actives.
  induction l as [|[c|] l IH]; simpl; [done | by f_equal | done].
Qed.


Lemma elem_of_actives c l : c ∈ actives l ↔ Some c ∈ l.
Proof.
  unfold actives. rewrite list_elem_of_omap. split.
  - intros ([d|] & Hd & E); simpl in E; by simplify_eq.
  - intros H. by exists (Some c).
Qed.

(** * The registration mapping under the store operations *)

Lemma registrations_Wf this st t :
  Wf this st t → registrations this st = arr st <$> table st t.
Proof. intros H. unfold registrations. by rewrite (wf_callbacks _ _ _ H). Qed.

Lemma listeners_Wf this st t ev a :
  Wf this st t → table st t !! ev = Some a → listeners this ev st = arr st a.
Proof.
  intros H Ha. unfold listeners.
  by rewrite (registrations_Wf _ _ _ H), lookup_fmap, Ha.
Qed.

Lemma listeners_Wf_None this st t ev :
  Wf this st t → table st t !! ev = None → listeners this ev st = [].
Proof.
  intros H Ha. unfold listeners.
  by rewrite (registrations_Wf _ _ _ H), lookup_fmap, Ha.
Qed.

Lemma Wf_set_array this st t a l : Wf this st t → Wf this (set_array a l st) t.
Proof.
  intros [H1 H2 H3 H4]. split; try done.
  intros ev b Hb. simpl. rewrite length_insert. by apply (H3 ev).
Qed.

Lemma Wf_record_calls this st t l : Wf this st t → Wf this (record_calls l st) t.
Proof. by intros [H1 H2 H3 H4]. Qed.

Lemma Wf_record_call this st t c args :
  Wf this st t → Wf this (record_call c args st) t.
Proof. by intros [H1 H2 H3 H4]. Qed.

Lemma registrations_record_calls this st l :
  registrations this (record_calls l st) = registrations this st.
Proof. done. Qed.

(** Writing an array in place changes the list of the one event that owns
    it. *)
Lemma registrations_set_array this st t ev a l :
  Wf this st t → table st t !! ev = Some a →
  registrations this (set_array a l st) = <[ev := l]> (registrations this st).
Proof.
  intros H Ha.
  rewrite (registrations_Wf _ _ _ (Wf_set_array _ _ _ a l H)).
  rewrite (registrations_Wf _ _ _ H).
  change (table (set_array a l st) t) with (table st t).
  apply map_eq. intros k. rewrite lookup_insert, !lookup_fmap.
  destruct (decide (ev = k)) as [<-|Hne].
  - rewrite Ha. simpl. f_equal. apply arr_set_array_eq. by eapply wf_arrays.
  - destruct (table st t !! k) as [b|] eqn:Hb; simpl; [|done].
    f_equal. apply arr_set_array_ne. intros <-.
    apply Hne. by eapply wf_inj.
Qed.

(** [calls[ev] = l] for a new array [l]: whatever [ev] had before is out of
    the mapping, everything else stays. *)
Lemma fresh_list_spec this st t ev l :
  Wf this st t →
  let n := length (arrays st) in
  let st2 := set_table t (<[ev := n]> (table st t)) (alloc_array l st).2 in
  Wf this st2 t
  ∧ table st2 t !! ev = Some n
  ∧ arr st2 n = l
  ∧ registrations this st2 = <[ev := l]> (registrations this st).
Proof.
  intros [H1 H2 H3 H4] n st2.
  assert (Ht : table st2 t = <[ev := n]> (table st t)).
  { unfold st2. by rewrite table_set_table_eq. }
  assert (Hn : arr st2 n = l) by apply arr_alloc_array_new.
  assert (Hw : Wf this st2 t).
  { split; rewrite ?Ht.
    - done.
    - unfold st2. simpl. by rewrite length_insert.
    - intros e b. simpl. rewrite length_app. simpl.
      rewrite lookup_insert. case_decide; intros Hb; simplify_eq.
      + lia.
      + apply H3 in Hb. lia.
    - intros e1 e2 b. rewrite !lookup_insert.
      repeat case_decide; intros Hb1 Hb2; simplify_eq; try done.
      + apply H3 in Hb2. lia.
      + apply H3 in Hb1. lia.
      + by eapply H4. }
  split_and!; try done.
  - by rewrite Ht, lookup_insert_eq.
  - rewrite (registrations_Wf _ _ _ Hw), Ht. unfold registrations.
    rewrite H1, fmap_insert, Hn. f_equal.
    apply map_fmap_ext. intros k b Hb.
    apply (arr_alloc_array_old st l b). by eapply H3.
Qed.

Lemma ensure_list_spec this st t ev :
  Wf this st t →
  ∃ a st2, ensure_list t ev st = (a, st2)
    ∧ Wf this st2 t
    ∧ table st2 t !! ev = Some a
    ∧ arr st2 a = listeners this ev st
    ∧ registrations this st2 = <[ev := listeners this ev st]> (registrations this st)
    ∧ invoked st2 = invoked st
    ∧ proxies st2 = proxies st.
Proof.
  intros H. unfold ensure_list.
  destruct (table st t !! ev) as [a|] eqn:Ha.
  - exists a, st. rewrite (insert_id _ _ _ Ha), set_table_id.
    rewrite (listeners_Wf _ _ _ _ _ H Ha).
    split_and!; try done.
    symmetry. apply insert_id.
    by rewrite (registrations_Wf _ _ _ H), lookup_fmap, Ha.
  - rewrite (listeners_Wf_None _ _ _ _ H Ha).
    destruct (fresh_list_spec this st t ev [] H) as (Hw & Hn & Harr & Hreg).
    eexists _, _. split_and!; done.
Qed.

(** * Registration *)

Lemma addListener_ensure this ev callback st :
  addListener this ev callback st =
  match get_callbacks this st with
  | None => Throws st
  | Some t =>
      let '(a, st2) := ensure_list t ev st in
      Returns (JObj this) (set_array a (arr st2 a ++ [Some callback]) st2)
  end.
Proof.
  unfold addListener, ensure_list, debug.
  destruct (get_callbacks this st) as [t|]; [|done].
  by destruct (table st t !! ev).
Qed.

Lemma headbind_ensure this ev callback st :
  headbind this ev callback st =
  match get_callbacks this st with
  | None => Throws st
  | Some t =>
      let '(a, st2) := ensure_list t ev st in
      Returns (JObj this) (set_array a (Some callback :: arr st2 a) st2)
  end.
Proof.
  unfold headbind, ensure_list, debug.
  destruct (get_callbacks this st) as [t|]; [|done].
  by destruct (table st t !! ev).
Qed.

Lemma addListener_spec this st t ev callback :
  Wf this st t →
  ∃ st', addListener this ev callback st = Returns (JObj this) st'
    ∧ Wf this st' t
    ∧ registrations this st' =
        <[ev := listeners this ev st ++ [Some callback]]> (registrations this st)
    ∧ invoked st' = invoked st.
Proof.
  intros H. rewrite addListener_ensure, (wf_callbacks _ _ _ H).
  destruct (ensure_list_spec this st t ev H)
    as (a & st2 & -> & Hw & Ha & Harr & Hreg & Hinv & _).
  eexists. split_and!; [done | by apply Wf_set_array | | done].
  rewrite (registrations_set_array _ _ _ _ _ _ Hw Ha), Hreg, Harr.
  apply insert_insert_eq.
Qed.

Lemma headbind_spec this st t ev callback :
  Wf this st t →
  ∃ st', headbind this ev callback st = Returns (JObj this) st'
    ∧ Wf this st' t
    ∧ registrations this st' =
        <[ev := Some callback :: listeners this ev st]> (registrations this st)
    ∧ invoked st' = invoked st.
Proof.
  intros H. rewrite headbind_ensure, (wf_callbacks _ _ _ H).
  destruct (ensure_list_spec this st t ev H)
    as (a & st2 & -> & Hw & Ha & Harr & Hreg & Hinv & _).
  eexists. split_and!; [done | by apply Wf_set_array | | done].
  rewrite (registrations_set_array _ _ _ _ _ _ Hw Ha), Hreg, Harr.
  apply insert_insert_eq.
Qed.

Lemma listeners_insert this st st' ev l :
  registrations this st' = <[ev := l]> (registrations this st) →
  listeners this ev st' = l.
Proof. intros H. unfold listeners. by rewrite H, lookup_insert_eq. Qed.


(** * Removal *)

Lemma remove_loop_spec callback rest pre :
  remove_loop callback (length rest) (length pre) (pre ++ rest)
  = pre ++ tombstone callback rest.
Proof.
  revert pre. induction rest as [|s rest IH]; intros pre; simpl; [done|].
  rewrite (list_lookup_middle pre rest s (length pre) eq_refl).
  destruct (decide (Some s = Some (Some callback))) as [E|E].
  - simplify_eq. rewrite decide_True by done.
    rewrite insert_app_r_alt, Nat.sub_diag by done. simpl.
    specialize (IH (pre ++ [None])).
    rewrite length_app, Nat.add_1_r, <- !app_assoc in IH. exact IH.
  - rewrite decide_False by congruence.
    specialize (IH (pre ++ [s])).
    rewrite length_app, Nat.add_1_r, <- !app_assoc in IH. exact IH.
Qed.

Lemma remove_loop_tombstone callback l :
  remove_loop callback (length l) 0 l = tombstone callback l.
Proof. apply (remove_loop_spec callback l []). Qed.

Lemma tombstone_length callback l : length (tombstone callback l) = length l.
Proof. unfold tombstone. apply length_fmap. Qed.

Lemma tombstone_lookup callback l i :
  tombstone callback l !! i
  = (λ s, if decide (s = Some callback) then None else s) <$> (l !! i).
Proof. unfold tombstone. apply list_lookup_fmap. Qed.

Lemma Wf_proxy this st t : Wf this st t → ∃ o, proxies st !! this = Some o ∧ _callbacks o = Some t.
Proof.
  intros H. pose proof (wf_callbacks _ _ _ H) as E. unfold get_callbacks in E.
  destruct (proxies st !! this) as [o|]; [|done]. by exists o.
Qed.

(** [this._callbacks = {}] *)
Lemma removeListener_all this st o eventname callback :
  proxies st !! this = Some o →
  eventname = None ∨ eventname = Some "" →
  removeListener this eventname callback st
  = Returns (JObj this)
      (set_proxy this (Proxy (Some (length (tables st))) (_fired o))
         (alloc_table ∅ st).2).
Proof. intros Ho [-> | ->]; unfold removeListener; by rewrite Ho. Qed.

Lemma registrations_reset this st o f :
  proxies st !! this = Some o →
  registrations this
    (set_proxy this (Proxy (Some (length (tables st))) f) (alloc_table ∅ st).2)
  = ∅.
Proof.
  intros Ho. unfold registrations, get_callbacks. simpl.
  rewrite list_lookup_insert_eq by by eapply lookup_lt_Some. simpl.
  unfold table. simpl. rewrite lookup_app_r, Nat.sub_diag by done. simpl.
  apply fmap_empty.
Qed.

(** [calls[eventname] = []] *)
Lemma removeListener_event this st t ev :
  Wf this st t → ev ≠ "" →
  ∃ st', removeListener this (Some ev) None st = Returns (JObj this) st'
    ∧ Wf this st' t
    ∧ registrations this st' = <[ev := []]> (registrations this st)
    ∧ invoked st' = invoked st.
Proof.
  intros H Hev. destruct (Wf_proxy _ _ _ H) as (o & Ho & Hc).
  destruct (fresh_list_spec this st t ev [] H) as (Hw & _ & _ & Hreg).
  unfold removeListener, debug. rewrite Ho, Hc.
  destruct ev as [|c ev]; [done|].
  eexists. split_and!; done.
Qed.

(** [list[i] = null] wherever [callback === list[i]] *)
Lemma removeListener_callback this st t ev callback :
  Wf this st t → ev ≠ "" →
  ∃ st', removeListener this (Some ev) (Some callback) st = Returns (JObj this) st'
    ∧ Wf this st' t
    ∧ st' = match table st t !! ev with
            | Some a => set_array a (tombstone callback (arr st a)) st
            | None => st
            end
    ∧ registrations this st' = alter (tombstone callback) ev (registrations this st).
Proof.
  intros H Hev. destruct (Wf_proxy _ _ _ H) as (o & Ho & Hc).
  unfold removeListener. rewrite Ho, Hc.
  destruct ev as [|c ev]; [done|].
  set (e := String c ev) in *.
  assert (Hreg : registrations this st !! e = arr st <$> table st t !! e).
  { by rewrite (registrations_Wf _ _ _ H), lookup_fmap. }
  destruct (table st t !! e) as [a|] eqn:Ha.
  - rewrite remove_loop_tombstone.
    eexists. split_and!; [done | by apply Wf_set_array | done |].
    rewrite (registrations_set_array _ _ _ _ _ _ H Ha).
    apply map_eq. intros k. rewrite lookup_insert, lookup_alter.
    case_decide; [subst k|done]. by rewrite Hreg.
  - eexists. split_and!; [done..|].
    apply map_eq. intros k. rewrite lookup_alter.
    case_decide; [subst k|done]. by rewrite Hreg.
Qed.

(** * Firing *)

Lemma record_calls_nil st : record_calls [] st = st.
Proof. unfold record_calls. rewrite app_nil_r. apply store_eta. Qed.

Lemma delete_middle {A} (pre rest : list A) x :
  delete (length pre) (pre ++ x :: rest) = pre ++ rest.
Proof. induction pre as [|y pre IH]; simpl; [done|]. by f_equal. Qed.

Section Quiet.

Variable body : cb → list value → list action.
Variable trig : loc → string → list value → Store → outcome.

(** One pass over an array whose listeners do not call back into the
    dispatcher: the functions run in order, the tombstones go. *)
Lemma for_loop_quiet this a both arguments rest pre st :
  a < length (arrays st) →
  arr st a = pre ++ rest →
  (∀ c, Some c ∈ rest → body c (pass_args both arguments) = []) →
  for_loop body trig this a both arguments (length rest) (length pre) st
  = Returns JUndefined
      (record_calls ((λ c, (c, pass_args both arguments)) <$> actives rest)
         (set_array a (pre ++ compact rest) st)).
Proof.
  revert pre st. induction rest as [|s rest IH]; intros pre st Ha Harr Hq.
  - simpl. rewrite record_calls_nil. unfold compact. simpl.
    by rewrite <- Harr, set_array_id.
  - simpl. rewrite Harr, (list_lookup_middle pre rest s (length pre) eq_refl).
    destruct s as [c|].
    + unfold apply. fold (pass_args both arguments).
      rewrite (Hq c) by apply list_elem_of_here. simpl.
      specialize (IH (pre ++ [Some c])
                    (record_call c (pass_args both arguments) st)).
      rewrite length_app, Nat.add_1_r in IH. rewrite IH.
      * unfold record_calls, set_array, record_call, compact. simpl.
        by rewrite <- !app_assoc.
      * done.
      * change (arr (record_call c (pass_args both arguments) st) a)
          with (arr st a).
        by rewrite Harr, <- app_assoc.
      * intros d Hd. apply Hq. by apply list_elem_of_further.
    + unfold splice1. rewrite Harr, delete_middle.
      rewrite (IH pre (set_array a (pre ++ rest) st)).
      * by rewrite set_array_set_array.
      * simpl. by rewrite length_insert.
      * by apply arr_set_array_eq.
      * intros d Hd. apply Hq. by apply list_elem_of_further.
Qed.

Lemma pass_quiet this a both arguments st :
  a < length (arrays st) →
  (∀ c, Some c ∈ arr st a → body c (pass_args both arguments) = []) →
  for_loop body trig this a both arguments (length (arr st a)) 0 st
  = Returns JUndefined
      (record_calls ((λ c, (c, pass_args both arguments)) <$> actives (arr st a))
         (set_array a (compact (arr st a)) st)).
Proof.
  intros Ha Hq.
  exact (for_loop_quiet this a both arguments (arr st a) [] st Ha eq_refl Hq).
Qed.

End Quiet.

Lemma listeners_alter this st st' f e e' :
  registrations this st' = alter f e (registrations this st) →
  f [] = [] →
  listeners this e' st' = if decide (e = e') then f (listeners this e' st)
                          else listeners this e' st.
Proof.
  intros H Hf. unfold listeners. rewrite H, lookup_alter.
  case_decide; [subst e'|done].
  destruct (registrations this st !! e); simpl; [done | by rewrite Hf].
Qed.

Lemma actives_listeners_compact this st st' e e' :
  registrations this st' = alter compact e (registrations this st) →
  actives (listeners this e' st') = actives (listeners this e' st).
Proof.
  intros H. rewrite (listeners_alter _ _ _ _ _ e' H) by done.
  case_decide; [apply actives_compact | done].
Qed.

Lemma after_pass_spec this st t e args :
  Wf this st t →
  Wf this (after_pass t e args st) t
  ∧ registrations this (after_pass t e args st)
    = alter compact e (registrations this st)
  ∧ invoked (after_pass t e args st)
    = invoked st ++ ((λ c, (c, args)) <$> actives (listeners this e st)).
Proof.
  intros H. unfold after_pass.
  assert (Hreg : registrations this st !! e = arr st <$> table st t !! e).
  { by rewrite (registrations_Wf _ _ _ H), lookup_fmap. }
  destruct (table st t !! e) as [a|] eqn:Ha.
  - rewrite (listeners_Wf _ _ _ _ _ H Ha).
    split_and!; [by apply Wf_record_calls, Wf_set_array | | done].
    rewrite registrations_record_calls.
    rewrite (registrations_set_array _ _ _ _ _ _ H Ha).
    apply map_eq. intros k. rewrite lookup_insert, lookup_alter.
    case_decide; [subst k|done]. by rewrite Hreg.
  - rewrite (listeners_Wf_None _ _ _ _ H Ha). simpl. rewrite app_nil_r.
    split_and!; [done | | done].
    apply map_eq. intros k. rewrite lookup_alter.
    case_decide; [subst k|done]. by rewrite Hreg.
Qed.

Section Fire.

Variable body : cb → list value → list action.

(** One turn of the [while] loop when the listeners of the event at hand
    are quiet. *)
Lemma while_step trig this t ev arguments both st :
  Wf this st t →
  let e := if decide (both = 0) then ALL_EVENT else ev in
  (∀ c, Some c ∈ listeners this e st → body c (pass_args both arguments) = []) →
  while_loop body trig this t ev arguments (S both) st
  = while_loop body trig this t ev arguments both
      (after_pass t e (pass_args both arguments) st).
Proof.
  intros H e Hq. simpl. fold e. unfold after_pass.
  destruct (table st t !! e) as [a|] eqn:Ha; [|done].
  rewrite (listeners_Wf _ _ _ _ _ H Ha) in Hq.
  rewrite pass_quiet; [done | by eapply wf_arrays | done].
Qed.

Lemma trigger_unfold fuel this ev data st :
  trigger body (S fuel) this ev data st
  = match get_callbacks this st with
    | None => Throws st
    | Some calls =>
        match while_loop body (trigger body fuel) this calls ev
                (VStr ev :: data) 2 st with
        | Returns _ st => Returns (JObj this) st
        | o => o
        end
    end.
Proof. done. Qed.

(** [trigger] when the listeners of the event and of the wildcard channel
    are quiet. *)
Lemma trigger_quiet fuel this ev data st t :
  Wf this st t →
  (∀ c, Some c ∈ listeners this ev st → body c data = []) →
  (∀ c, Some c ∈ listeners this ALL_EVENT st → body c (VStr ev :: data) = []) →
  ∃ st', trigger body (S fuel) this ev data st = Returns (JObj this) st'
    ∧ Wf this st' t
    ∧ registrations this st'
      = alter compact ALL_EVENT (alter compact ev (registrations this st))
    ∧ invoked st'
      = invoked st
        ++ ((λ c, (c, data)) <$> actives (listeners this ev st))
        ++ ((λ c, (c, VStr ev :: data)) <$> actives (listeners this ALL_EVENT st)).
Proof.
  intros H Hd Hw. rewrite trigger_unfold, (wf_callbacks _ _ _ H).
  destruct (after_pass_spec this st t ev data H) as (H1 & R1 & I1).
  rewrite (while_step _ this t ev (VStr ev :: data) 1 st H) by done.
  change (if decide (1 = 0) then ALL_EVENT else ev) with ev.
  change (pass_args 1 (VStr ev :: data)) with data.
  set (st1 := after_pass t ev data st) in *.
  destruct (after_pass_spec this st1 t ALL_EVENT (VStr ev :: data) H1)
    as (H2 & R2 & I2).
  rewrite (while_step _ this t ev (VStr ev :: data) 0 st1 H1).
  - change (if decide (0 = 0) then ALL_EVENT else ev) with ALL_EVENT.
    change (pass_args 0 (VStr ev :: data)) with (VStr ev :: data).
    simpl. eexists. split_and!; [done | done | by rewrite R2, R1 |].
    rewrite I2, I1, <- app_assoc.
    by rewrite (actives_listeners_compact _ _ _ _ ALL_EVENT R1).
  - change (if decide (0 = 0) then ALL_EVENT else ev) with ALL_EVENT.
    change (pass_args 0 (VStr ev :: data)) with (VStr ev :: data).
    intros c Hc. apply Hw.
    apply elem_of_actives. apply elem_of_actives in Hc.
    by rewrite (actives_listeners_compact _ _ _ _ ALL_EVENT R1) in Hc.
Qed.

End Fire.

Lemma quiet_cons body args s l :
  quiet body args (s :: l) → quiet body args l.
Proof. intros H c Hc. apply H. by apply list_elem_of_further. Qed.

Lemma quiet_app body args l1 l2 :
  quiet body args l1 → quiet body args l2 → quiet body args (l1 ++ l2).
Proof. intros H1 H2 c [Hc|Hc]%elem_of_app; auto. Qed.


Lemma compact_elem_of c l : Some c ∈ compact l ↔ Some c ∈ l.
Proof.
  by rewrite <- !elem_of_actives, actives_compact.
Qed.

Example demo_store_wf : wf 0 demo_store = true.
Proof. vm_compute. reflexivity. Qed.

Example demo_fire :
  trigger quiet_body 1 0 "done" [VNum 42] demo_store
  = Returns (JObj 0)
      (mkStore [[Some 1; Some 2]; [Some 3]; []] (tables demo_store)
         (proxies demo_store)
         [(1, [VNum 42]); (2, [VNum 42]); (3, [VStr "done"; VNum 42])]).
Proof. vm_compute. reflexivity. Qed.

(** * The operations of the dispatcher *)







Example register_twice_fires_twice :
  ∃ st1 st2 st3,
    addListener 0 "done" 7 demo_store = Returns (JObj 0) st1
    ∧ addListener 0 "done" 7 st1 = Returns (JObj 0) st2
    ∧ fire quiet_body 1 0 "done" [VNum 42] st2 = Returns (JObj 0) st3
    ∧ invoked st3
      = [(1, [VNum 42]); (2, [VNum 42]); (7, [VNum 42]); (7, [VNum 42]);
         (3, [VStr "done"; VNum 42])].
Proof. eexists _, _, _. split_and!; vm_compute; reflexivity. Qed.



(** C3. The three behaviours of [unregister] on any dispatcher, [e] being a
    non-empty event name and [cb] a function. With both arguments omitted
    the registration mapping becomes empty. With the callback omitted the
    list of [e] becomes the empty list, under the key [e], and every other
    list stays. With both given, the slots of the list of [e] that hold
    [cb] become tombstones: the array is the same one, it keeps its length,
    and every other slot keeps its position and its content. Each of the
    three calls returns the dispatcher. *)
Theorem unregister_three_ways
    (this : loc) (e : string) (callback : cb) (st : Store) :
  wf this st = true →
  e ≠ "" →
  (∃ st1,
      removeListener this None None st = Returns (JObj this) st1
      ∧ registrations this st1 = ∅)
  ∧ (∃ st2,
      removeListener this (Some e) None st = Returns (JObj this) st2
      ∧ registrations this st2 = <[e := []]> (registrations this st))
  ∧ (∃ st3,
      removeListener this (Some e) (Some callback) st = Returns (JObj this) st3
      ∧ registrations this st3
        = alter (tombstone callback) e (registrations this st)
      ∧ tables st3 = tables st
      ∧ proxies st3 = proxies st
      ∧ length (listeners this e st3) = length (listeners this e st)
      ∧ ∀ i, listeners this e st3 !! i
             = (λ s, if decide (s = Some callback) then None else s)
                 <$> (listeners this e st !! i)).
Proof.
  intros [t H]%wf_Wf He.
  destruct (Wf_proxy _ _ _ H) as (o & Ho & _).
  split_and!.
  - eexists. split.
    + apply (removeListener_all this st o); [done | by left].
    + by eapply registrations_reset.
  - destruct (removeListener_event this st t e H He) as (st2 & E & _ & R & _).
    by exists st2.
  - destruct (removeListener_callback this st t e callback H He)
      as (st3 & E & _ & S3 & R).
    assert (L : listeners this e st3 = tombstone callback (listeners this e st)).
    { by rewrite (listeners_alter _ _ _ _ _ e R), decide_True. }
    exists st3. split_and!; [done | done | | | |].
    + rewrite S3. by destruct (table st t !! e).
    + rewrite S3. by destruct (table st t !! e).
    + by rewrite L, tombstone_length.
    + intros i. by rewrite L, tombstone_lookup.
Qed.

Lemma unregister_three_ways_witness :
  wf 0 demo_store = true
  ∧ "done" ≠ ""
  ∧ (∃ st1,
        removeListener 0 None None demo_store = Returns (JObj 0) st1
        ∧ registrations 0 st1 = ∅)
  ∧ (∃ st2,
        removeListener 0 (Some "done") None demo_store = Returns (JObj 0) st2
        ∧ registrations 0 st2 = <["done" := []]> (registrations 0 demo_store))
  ∧ (∃ st3,
        removeListener 0 (Some "done") (Some 2) demo_store = Returns (JObj 0) st3
        ∧ registrations 0 st3
          = alter (tombstone 2) "done" (registrations 0 demo_store)
        ∧ tables st3 = tables demo_store
        ∧ proxies st3 = proxies demo_store
        ∧ length (listeners 0 "done" st3) = length (listeners 0 "done" demo_store)
        ∧ ∀ i, listeners 0 "done" st3 !! i
               = (λ s, if decide (s = Some 2) then None else s)
                   <$> (listeners 0 "done" demo_store !! i)).
Proof.
  assert (H1 : wf 0 demo_store = true) by (vm_compute; reflexivity).
  assert (H2 : "done" ≠ "") by discriminate.
  split; [exact H1|]. split; [exact H2|].
  exact (unregister_three_ways 0 "done" 2 demo_store H1 H2).
Defined.

Example unregister_callback_in_place :
  removeListener 0 (Some "done") (Some 1)
    (mkStore [[Some 1; Some 2; Some 1]] [{["done" := 0]}] [Proxy (Some 0) None] [])
  = Returns (JObj 0)
      (mkStore [[None; Some 2; None]] [{["done" := 0]}] [Proxy (Some 0) None] []).
Proof. vm_compute. reflexivity. Qed.

(** * Listeners that unregister while a pass is running *)










Lemma table_ext st st' t : tables st' = tables st → table st' t = table st t.
Proof. unfold table. by intros ->. Qed.

Lemma ALL_EVENT_nonempty : ALL_EVENT ≠ "".
Proof. done. Qed.

Section Removals.

Variable body : cb → list value → list action.
Variable trig : loc → string → list value → Store → outcome.





End Removals.





Section FireRemovals.

Variable body : cb → list value → list action.

Lemma while_loop_S trig this calls ev arguments both st :
  while_loop body trig this calls ev arguments (S both) st
  = match table st calls !! (if decide (both = 0) then ALL_EVENT else ev) with
    | None => while_loop body trig this calls ev arguments both st
    | Some lst =>
        match for_loop body trig this lst both arguments
                (length (arr st lst)) 0 st with
        | Returns _ st => while_loop body trig this calls ev arguments both st
        | o => o
        end
    end.
Proof. done. Qed.


End FireRemovals.




(** Listener 1 unregisters itself while it runs, listener 2 unregisters
    listener 1 again: both run, once each, and so does the wildcard
    listener; the slot of listener 1 is a tombstone afterwards. *)
Example self_removal_keeps_the_others :
  fire removing_body 1 0 "done" [VNum 42] demo_store
  = Returns (JObj 0)
      (mkStore [[None; Some 2]; [Some 3]; []] (tables demo_store)
         (proxies demo_store)
         [(1, [VNum 42]); (2, [VNum 42]); (3, [VStr "done"; VNum 42])]).
Proof. vm_compute. reflexivity. Qed.

(** * Events nobody registered *)




(** * The wildcard wrappers *)

(** C8, as stated, fails: [bindForAll(cb)] leaves the store that
    [register(ALL_EVENT, cb)] leaves, but the value of the call is
    [undefined], not the dispatcher. *)
Lemma bindForAll_returns_undefined :
  ∃ st',
    addListener 0 ALL_EVENT 9 demo_store = Returns (JObj 0) st'
    ∧ bindForAll 0 9 demo_store = Returns JUndefined st'
    ∧ bindForAll 0 9 demo_store ≠ addListener 0 ALL_EVENT 9 demo_store.
Proof.
  eexists. split; [vm_compute; reflexivity|].
  split; [vm_compute; reflexivity|].
  vm_compute. discriminate.
Qed.

(** C8, amended. [bindForAll(cb)] leaves the store that
    [register(ALL_EVENT, cb)] leaves, and [unbindForAll(cb)] the store that
    [unregister(ALL_EVENT, cb)] leaves; [register] and [unregister] return
    the dispatcher, the two wrappers return [undefined]. *)
Theorem forAll_wrappers_same_store (this : loc) (callback : cb) (st : Store) :
  wf this st = true →
  ∃ st1 st2,
    addListener this ALL_EVENT callback st = Returns (JObj this) st1
    ∧ bindForAll this callback st = Returns JUndefined st1
    ∧ removeListener this (Some ALL_EVENT) (Some callback) st
      = Returns (JObj this) st2
    ∧ unbindForAll this (Some callback) st = Returns JUndefined st2.
Proof.
  intros [t H]%wf_Wf.
  destruct (addListener_spec this st t ALL_EVENT callback H) as (st1 & E1 & _).
  destruct (removeListener_callback this st t ALL_EVENT callback H
              ALL_EVENT_nonempty) as (st2 & E2 & _).
  exists st1, st2. unfold bindForAll, unbindForAll, bind, unbind.
  by rewrite E1, E2.
Qed.

Lemma forAll_wrappers_same_store_witness :
  wf 0 demo_store = true
  ∧ ∃ st1 st2,
      addListener 0 ALL_EVENT 9 demo_store = Returns (JObj 0) st1
      ∧ bindForAll 0 9 demo_store = Returns JUndefined st1
      ∧ removeListener 0 (Some ALL_EVENT) (Some 9) demo_store
        = Returns (JObj 0) st2
      ∧ unbindForAll 0 (Some 9) demo_store = Returns JUndefined st2.
Proof.
  assert (H1 : wf 0 demo_store = true) by (vm_compute; reflexivity).
  split; [exact H1|].
  exact (forAll_wrappers_same_store 0 9 demo_store H1).
Defined.

(** Whatever the store, the wrappers end in the store of the call they
    make. *)
Lemma forAll_wrappers_final_store
    (this : loc) (callback : cb) (removed : option cb) (st : Store) :
  final_store (bindForAll this callback st)
  = final_store (addListener this ALL_EVENT callback st)
  ∧ final_store (unbindForAll this removed st)
    = final_store (removeListener this (Some ALL_EVENT) removed st).
Proof.
  unfold bindForAll, unbindForAll, bind, unbind.
  split.
  - by destruct (addListener this ALL_EVENT callback st).
  - by destruct (removeListener this (Some ALL_EVENT) removed st).
Qed.

(** * Falsy event names *)

(** C9. [unregister] tests its arguments for falsiness: with the empty
    string as event name the call does what it does when the event name is
    omitted, whatever the callback argument: it returns the dispatcher and
    the registration mapping is empty afterwards, for every event. *)
Theorem unregister_empty_name_resets
    (this : loc) (callback : option cb) (o : proxy) (st : Store) :
  proxies st !! this = Some o →
  ∃ st',
    removeListener this (Some "") callback st = Returns (JObj this) st'
    ∧ removeListener this None callback st = Returns (JObj this) st'
    ∧ registrations this st' = ∅
    ∧ ∀ e, listeners this e st' = [].
Proof.
  intros Ho. eexists. split_and!.
  - apply (removeListener_all this st o); [done | by right].
  - apply (removeListener_all this st o); [done | by left].
  - by eapply registrations_reset.
  - intros e. unfold listeners. by erewrite registrations_reset.
Qed.

Lemma unregister_empty_name_resets_witness :
  proxies demo_store !! 0 = Some (Proxy (Some 0) (Some 1))
  ∧ ∃ st',
      removeListener 0 (Some "") (Some 1) demo_store = Returns (JObj 0) st'
      ∧ removeListener 0 None (Some 1) demo_store = Returns (JObj 0) st'
      ∧ registrations 0 st' = ∅
      ∧ ∀ e, listeners 0 e st' = [].
Proof.
  assert (H1 : proxies demo_store !! 0 = Some (Proxy (Some 0) (Some 1)))
    by reflexivity.
  split; [exact H1|].
  exact (unregister_empty_name_resets 0 (Some 1) (Proxy (Some 0) (Some 1))
           demo_store H1).
Defined.

Example unregister_empty_name_clears_other_events :
  listeners 0 "done" demo_store = [Some 1; None; Some 2]
  ∧ ∃ st',
      removeListener 0 (Some "") None demo_store = Returns (JObj 0) st'
      ∧ listeners 0 "done" st' = []
      ∧ listeners 0 ALL_EVENT st' = [].
Proof.
  split; [vm_compute; reflexivity|].
  eexists. split_and!; vm_compute; reflexivity.
Qed.

(** * The constructor *)

Lemma new_EventProxy fuel st :
  js_new (EventProxy (S fuel)) st
  = Returns (JObj (length (proxies st))) (fresh_dispatcher st).
Proof.
  unfold js_new, alloc_proxy. cbn [EventProxy]. cbn [proxies].
  rewrite (list_lookup_middle (proxies st) [] _ _ eq_refl).
  unfold alloc_table, set_proxy, fresh_dispatcher. simpl.
  rewrite list_insert_insert_eq.
  rewrite insert_app_r_alt, Nat.sub_diag by done. simpl.
  rewrite <- app_assoc, length_app, Nat.add_1_r. done.
Qed.

(** C10. Called as a plain function, the constructor returns what
    [new EventProxy()] returns from the same store: a dispatcher that was
    not in the store before, with an empty registration mapping, every
    object already in the store being left as it was. *)
Theorem constructor_without_new (fuel fuel' : nat) (st : Store) :
  EventProxy (S (S fuel)) ThisOther st = js_new (EventProxy (S fuel')) st
  ∧ ∃ st',
      js_new (EventProxy (S fuel')) st = Returns (JObj (length (proxies st))) st'
      ∧ proxies st !! length (proxies st) = None
      ∧ registrations (length (proxies st)) st' = ∅
      ∧ wf (length (proxies st)) st' = true
      ∧ arrays st' = arrays st
      ∧ invoked st' = invoked st
      ∧ (∀ t, t < length (tables st) → table st' t = table st t)
      ∧ (∀ p, p < length (proxies st) → proxies st' !! p = proxies st !! p).
Proof.
  change (EventProxy (S (S fuel)) ThisOther st)
    with (js_new (EventProxy (S fuel)) st).
  rewrite !new_EventProxy. split; [done|].
  exists (fresh_dispatcher st).
  assert (Hc : get_callbacks (length (proxies st)) (fresh_dispatcher st)
               = Some (length (tables st))).
  { unfold get_callbacks, fresh_dispatcher. simpl.
    by rewrite (list_lookup_middle (proxies st) [] _ _ eq_refl). }
  assert (Ht : table (fresh_dispatcher st) (length (tables st)) = ∅).
  { apply table_lookup. unfold fresh_dispatcher. simpl.
    by rewrite (list_lookup_middle (tables st) [∅] _ _ eq_refl). }
  split_and!; try done.
  - by apply lookup_ge_None.
  - unfold registrations. by rewrite Hc, Ht, fmap_empty.
  - unfold wf. rewrite Hc, Ht.
    rewrite !andb_true_iff, !bool_decide_eq_true. split_and!.
    + unfold fresh_dispatcher. simpl. rewrite length_app. simpl. lia.
    + apply map_Forall_empty.
    + rewrite map_to_list_empty. constructor.
  - intros t Hlt. unfold table, fresh_dispatcher. simpl.
    by rewrite lookup_app_l.
  - intros p Hlt. unfold fresh_dispatcher. simpl. by rewrite lookup_app_l.
Qed.

Example constructor_on_empty_store :
  EventProxy 2 ThisOther empty_store
  = Returns (JObj 0) (mkStore [] [∅; ∅] [Proxy (Some 0) (Some 1)] []).
Proof. reflexivity. Qed.

(** * Well-formedness is an invariant *)

(** The theorems above assume a well-formed dispatcher. The constructor
    makes one, and whatever the listeners do, every method leaves one: the
    assumption holds in every store a program can reach through the
    methods. *)

Lemma Wf_wf this st t : Wf this st t → wf this st = true.
Proof.
  intros [H1 H2 H3 H4]. unfold wf. rewrite H1.
  rewrite !andb_true_iff, !bool_decide_eq_true. split_and!; [done | | ].
  - intros ev a Ha. by eapply H3.
  - apply NoDup_fmap_2_strong; [|apply NoDup_map_to_list].
    intros [k1 a1] [k2 a2] Hk1%elem_of_map_to_list Hk2%elem_of_map_to_list E.
    simpl in E. subst a2. f_equal. by eapply H4.
Qed.

Lemma wf_reset this st o f :
  proxies st !! this = Some o →
  wf this
    (set_proxy this (Proxy (Some (length (tables st))) f) (alloc_table ∅ st).2)
  = true.
Proof.
  intros Ho. apply (Wf_wf _ _ (length (tables st))).
  assert (Ht : table (set_proxy this (Proxy (Some (length (tables st))) f)
                        (alloc_table ∅ st).2) (length (tables st)) = ∅).
  { apply table_lookup. simpl.
    by rewrite (list_lookup_middle (tables st) [] _ _ eq_refl). }
  split; rewrite ?Ht.
  - unfold get_callbacks. simpl.
    by rewrite list_lookup_insert_eq by by eapply lookup_lt_Some.
  - simpl. rewrite length_app. simpl. lia.
  - intros ev a. by rewrite lookup_empty.
  - intros e1 e2 a. by rewrite lookup_empty.
Qed.

Lemma wf_proxy this st : wf this st = true → is_Some (proxies st !! this).
Proof.
  intros [t H]%wf_Wf. destruct (Wf_proxy _ _ _ H) as (o & Ho & _). by eexists.
Qed.

Lemma addListener_keeps_wf this ev c : keeps_wf this (addListener this ev c).
Proof.
  intros st st' [t H]%wf_Wf.
  destruct (addListener_spec this st t ev c H) as (st1 & -> & H1 & _).
  intros [= <-]. by eapply Wf_wf.
Qed.

Lemma headbind_keeps_wf this ev c : keeps_wf this (headbind this ev c).
Proof.
  intros st st' [t H]%wf_Wf.
  destruct (headbind_spec this st t ev c H) as (st1 & -> & H1 & _).
  intros [= <-]. by eapply Wf_wf.
Qed.

Lemma removeListener_keeps_wf this e c : keeps_wf this (removeListener this e c).
Proof.
  intros st st' Hwf.
  destruct (wf_proxy _ _ Hwf) as [o Ho].
  destruct (wf_Wf _ _ Hwf) as [t H].
  assert (Hreset : e = None ∨ e = Some "" →
            final_store (removeListener this e c st) = Some st' →
            wf this st' = true).
  { intros He. rewrite (removeListener_all this st o e c Ho He).
    intros [= <-]. by eapply wf_reset. }
  destruct e as [e|]; [|by apply Hreset; left].
  destruct (decide (e = "")) as [->|He]; [by apply Hreset; right|].
  destruct c as [c|].
  - destruct (removeListener_callback this st t e c H He) as (st1 & -> & H1 & _).
    intros [= <-]. by eapply Wf_wf.
  - destruct (removeListener_event this st t e H He) as (st1 & -> & H1 & _).
    intros [= <-]. by eapply Wf_wf.
Qed.

Lemma bindForAll_keeps_wf this c : keeps_wf this (bindForAll this c).
Proof.
  intros st st' Hwf E. apply (addListener_keeps_wf this ALL_EVENT c st st' Hwf).
  by rewrite <- (proj1 (forAll_wrappers_final_store this c None st)).
Qed.

Lemma unbindForAll_keeps_wf this c : keeps_wf this (unbindForAll this c).
Proof.
  intros st st' Hwf E.
  apply (removeListener_keeps_wf this (Some ALL_EVENT) c st st' Hwf).
  by rewrite <- (proj2 (forAll_wrappers_final_store this 0 c st)).
Qed.

Section Invariant.

Variable body : cb → list value → list action.
Variable trig : loc → string → list value → Store → outcome.
Variable this : loc.
Hypothesis trig_keeps_wf : ∀ ev data, keeps_wf this (trig this ev data).

Lemma run_action_keeps_wf act : keeps_wf this (run_action trig this act).
Proof.
  destruct act; simpl.
  - apply addListener_keeps_wf.
  - apply headbind_keeps_wf.
  - apply removeListener_keeps_wf.
  - apply removeListener_keeps_wf.
  - apply bindForAll_keeps_wf.
  - apply unbindForAll_keeps_wf.
  - apply trig_keeps_wf.
  - by intros st st' Hwf [= <-].
Qed.

Lemma run_body_keeps_wf acts : keeps_wf this (run_body trig this acts).
Proof.
  induction acts as [|act acts IH]; intros st st' Hwf; simpl.
  - by intros [= <-].
  - pose proof (run_action_keeps_wf act st) as Hact.
    destruct (run_action trig this act st) as [v st1|st1|]; simpl in *.
    + intros E. apply (IH st1 st'); [by apply Hact | done].
    + intros [= <-]. by apply Hact.
    + done.
Qed.

Lemma wf_set_array a l st : wf this st = true → wf this (set_array a l st) = true.
Proof. intros [t H]%wf_Wf. by eapply Wf_wf, Wf_set_array. Qed.

Lemma wf_record_call c args st :
  wf this st = true → wf this (record_call c args st) = true.
Proof. intros [t H]%wf_Wf. by eapply Wf_wf, Wf_record_call. Qed.

Lemma for_loop_keeps_wf lst both arguments todo i :
  keeps_wf this (for_loop body trig this lst both arguments todo i).
Proof.
  revert i. induction todo as [|todo IH]; intros i st st' Hwf; simpl.
  - by intros [= <-].
  - destruct (arr st lst !! i) as [[c|]|].
    + unfold apply.
      pose proof (run_body_keeps_wf
                    (body c (drop (if decide (both = 0) then 0 else 1) arguments))
                    (record_call c
                       (drop (if decide (both = 0) then 0 else 1) arguments) st))
        as Hrun.
      destruct (run_body trig this _ _) as [v st1|st1|]; simpl in *.
      * apply IH, Hrun; [by apply wf_record_call | done].
      * intros [= <-]. apply Hrun; [by apply wf_record_call | done].
      * done.
    + apply IH. by apply wf_set_array.
    + apply IH. by apply wf_set_array.
Qed.

Lemma while_loop_keeps_wf calls ev arguments both :
  keeps_wf this (while_loop body trig this calls ev arguments both).
Proof.
  induction both as [|both IH]; intros st st' Hwf.
  - by intros [= <-].
  - rewrite while_loop_S.
    destruct (table st calls !! _) as [lst|]; [|by apply IH].
    pose proof (for_loop_keeps_wf lst both arguments (length (arr st lst)) 0 st)
      as Hfor.
    destruct (for_loop body trig this lst both arguments _ 0 st)
      as [v st1|st1|]; simpl in *.
    + apply IH. by apply Hfor.
    + intros [= <-]. by apply Hfor.
    + done.
Qed.

End Invariant.

(** Firing keeps the dispatcher well formed, whatever the listeners do and
    however the call ends. *)
Lemma trigger_keeps_wf body fuel this ev data :
  keeps_wf this (trigger body fuel this ev data).
Proof.
  revert ev data. induction fuel as [|fuel IH]; intros ev data st st' Hwf.
  - done.
  - rewrite trigger_unfold.
    destruct (get_callbacks this st) as [calls|]; [|by intros [= <-]].
    pose proof (while_loop_keeps_wf body (trigger body fuel) this IH calls ev
                  (VStr ev :: data) 2 st) as Hw.
    destruct (while_loop body (trigger body fuel) this calls ev _ 2 st)
      as [v st1|st1|]; simpl in *.
    + intros [= <-]. by apply Hw.
    + intros [= <-]. by apply Hw.
    + done.
Qed.

(** * The loop counters of [trigger] *)

(** [for_loop] counts the iterations left, where the source keeps the two
    counters [i] and [l]: the two loops are the same. *)

Section Counters.

Variable body : cb → list value → list action.
Variable trig : loc → string → list value → Store → outcome.

Lemma for_loop_counters_spec this lst both arguments gas i l st :
  (0 ≤ i)%Z →
  Z.to_nat (l - i) ≤ gas →
  for_loop_counters body trig this lst both arguments gas i l st
  = for_loop body trig this lst both arguments (Z.to_nat (l - i)) (Z.to_nat i) st.
Proof.
  revert i l st. induction gas as [|gas IH]; intros i l st Hi Hgas.
  - cbn [for_loop_counters]. case_bool_decide; [lia|].
    by replace (Z.to_nat (l - i)) with 0 by lia.
  - cbn [for_loop_counters]. case_bool_decide as Hlt.
    + replace (Z.to_nat (l - i)) with (S (Z.to_nat (l - (i + 1)))) by lia.
      cbn [for_loop].
      destruct (arr st lst !! Z.to_nat i) as [[c|]|].
      * destruct (apply body trig c this _ st) as [v st1|st1|]; try done.
        rewrite IH by lia. by replace (Z.to_nat (i + 1)) with (S (Z.to_nat i)) by lia.
      * rewrite IH by lia.
        replace (i - 1 + 1)%Z with i by lia.
        by replace (l - 1 - i)%Z with (l - (i + 1))%Z by lia.
      * rewrite IH by lia.
        replace (i - 1 + 1)%Z with i by lia.
        by replace (l - 1 - i)%Z with (l - (i + 1))%Z by lia.
    + by replace (Z.to_nat (l - i)) with 0 by lia.
Qed.

(** The loop as [trigger] starts it: [i = 0], [l = list.length]. *)
Lemma for_loop_counters_start this lst both arguments st :
  for_loop_counters body trig this lst both arguments (length (arr st lst)) 0
    (Z.of_nat (length (arr st lst))) st
  = for_loop body trig this lst both arguments (length (arr st lst)) 0 st.
Proof.
  rewrite for_loop_counters_spec by lia.
  by replace (Z.to_nat (Z.of_nat (length (arr st lst)) - 0))
    with (length (arr st lst)) by lia.
Qed.

End Counters.

(** * How the operations compose *)

Lemma listeners_registrations_ne this st st' e e' l :
  registrations this st' = <[e := l]> (registrations this st) → e ≠ e' →
  listeners this e' st' = listeners this e' st.
Proof. intros H Hne. unfold listeners. by rewrite H, lookup_insert_ne. Qed.








Lemma actives_tombstone callback l :
  actives (tombstone callback l) = filter (λ c, c ≠ callback) (actives l).
Proof.
  induction l as [|[c|] l IH]; [done | | exact IH].
  change (tombstone callback (Some c :: l))
    with ((if decide (Some c = Some callback) then None else Some c)
            :: tombstone callback l).
  change (actives (Some c :: l)) with (c :: actives l). rewrite filter_cons.
  destruct (decide (Some c = Some callback)) as [E|E].
  - simplify_eq. rewrite decide_False by (intros H; by apply H). exact IH.
  - rewrite decide_True by congruence.
    change (actives (Some c :: tombstone callback l))
      with (c :: actives (tombstone callback l)).
    by rewrite IH.
Qed.


Lemma tombstone_absent callback l :
  Some callback ∉ l → tombstone callback l = l.
Proof.
  intros H. unfold tombstone. rewrite <- (list_fmap_id l) at 2.
  apply list_fmap_ext. intros i s Hs. rewrite decide_False; [done|].
  intros ->. apply H. by eapply list_elem_of_lookup_2.
Qed.

Lemma tombstone_gone callback l : Some callback ∉ tombstone callback l.
Proof.
  rewrite <- elem_of_actives, actives_tombstone.
  by intros [? _]%list_elem_of_filter.
Qed.





(** X4. After [removeAllListeners(e)] the next [fire(e, ...)] invokes none
    of the listeners [e] had; the listeners of the wildcard channel are
    still invoked, unless [e] is the wildcard name itself. *)
Theorem removeAllListeners_then_fire
    (body : cb → list value → list action) (fuel : nat) (this : loc)
    (e : string) (args : list value) (st : Store) :
  wf this st = true →
  e ≠ "" →
  quiet body (VStr e :: args) (listeners this ALL_EVENT st) →
  ∃ st1 st2,
    removeAllListeners this (Some e) st = Returns (JObj this) st1
    ∧ listeners this e st1 = []
    ∧ fire body (S fuel) this e args st1 = Returns (JObj this) st2
    ∧ invoked st2
      = invoked st
        ++ ((λ c, (c, VStr e :: args))
              <$> (if decide (e = ALL_EVENT) then []
                   else actives (listeners this ALL_EVENT st))).
Proof.
  intros [t H]%wf_Wf He Hw. unfold removeAllListeners, unbind, fire.
  destruct (removeListener_event this st t e H He) as (st1 & E1 & H1 & R1 & I1).
  pose proof (listeners_insert _ _ _ _ _ R1) as L1.
  assert (LA : listeners this ALL_EVENT st1
               = if decide (e = ALL_EVENT) then []
                 else listeners this ALL_EVENT st).
  { case_decide as Hall; [by subst e|].
    by apply (listeners_registrations_ne _ _ _ _ _ _ R1). }
  destruct (trigger_quiet body fuel this e args st1 t H1) as (st2 & E2 & _ & _ & I2).
  - rewrite L1. by intros c ?%elem_of_nil.
  - rewrite LA. case_decide; [by intros c ?%elem_of_nil | done].
  - exists st1, st2. split_and!; [done..|].
    rewrite I2, I1, L1, LA. simpl. by case_decide.
Qed.

Lemma removeAllListeners_then_fire_witness :
  wf 0 demo_store = true
  ∧ "done" ≠ ""
  ∧ quiet quiet_body (VStr "done" :: [VNum 42]) (listeners 0 ALL_EVENT demo_store)
  ∧ ∃ st1 st2,
      removeAllListeners 0 (Some "done") demo_store = Returns (JObj 0) st1
      ∧ listeners 0 "done" st1 = []
      ∧ fire quiet_body 1 0 "done" [VNum 42] st1 = Returns (JObj 0) st2
      ∧ invoked st2
        = invoked demo_store
          ++ ((λ c, (c, VStr "done" :: [VNum 42]))
                <$> (if decide ("done" = ALL_EVENT) then []
                     else actives (listeners 0 ALL_EVENT demo_store))).
Proof.
  assert (H1 : wf 0 demo_store = true) by (vm_compute; reflexivity).
  assert (H2 : "done" ≠ "") by discriminate.
  assert (H3 : quiet quiet_body (VStr "done" :: [VNum 42])
                 (listeners 0 ALL_EVENT demo_store))
    by (intros c _; reflexivity).
  split; [exact H1|]. split; [exact H2|]. split; [exact H3|].
  exact (removeAllListeners_then_fire quiet_body 0 0 "done" [VNum 42]
           demo_store H1 H2 H3).
Defined.



(** X6. [unbind(e, cb)] for a function that has no slot in the list of [e]
    (or for an event without a list) returns the dispatcher and leaves the
    store exactly as it is. So unregistering is idempotent: a second
    [unbind(e, cb)] changes nothing. *)
Theorem unbind_absent_is_noop
    (this : loc) (e : string) (callback : cb) (st : Store) :
  wf this st = true →
  e ≠ "" →
  (Some callback ∉ listeners this e st →
   unbind this (Some e) (Some callback) st = Returns (JObj this) st)
  ∧ ∃ st1,
      unbind this (Some e) (Some callback) st = Returns (JObj this) st1
      ∧ (Some callback ∉ listeners this e st1)
      ∧ unbind this (Some e) (Some callback) st1 = Returns (JObj this) st1.
Proof.
  intros [t H]%wf_Wf He. unfold unbind.
  assert (Hnoop : ∀ s, Wf this s t → Some callback ∉ listeners this e s →
            removeListener this (Some e) (Some callback) s = Returns (JObj this) s).
  { intros s Hs Habs.
    destruct (removeListener_callback this s t e callback Hs He)
      as (s1 & E1 & _ & S1 & _).
    rewrite E1. f_equal. rewrite S1.
    destruct (table s t !! e) as [a|] eqn:Ha; [|done].
    rewrite (listeners_Wf _ _ _ _ _ Hs Ha) in Habs.
    by rewrite (tombstone_absent _ _ Habs), set_array_id. }
  split; [by apply Hnoop|].
  destruct (removeListener_callback this st t e callback H He)
    as (st1 & E1 & H1 & _ & R1).
  assert (Hgone : Some callback ∉ listeners this e st1).
  { rewrite (listeners_alter _ _ _ _ _ e R1), decide_True by done.
    apply tombstone_gone. }
  exists st1. split_and!; [done | done | by apply Hnoop].
Qed.

Lemma unbind_absent_is_noop_witness :
  wf 0 demo_store = true
  ∧ "done" ≠ ""
  ∧ (Some 5 ∉ listeners 0 "done" demo_store →
     unbind 0 (Some "done") (Some 5) demo_store = Returns (JObj 0) demo_store)
  ∧ ∃ st1,
      unbind 0 (Some "done") (Some 5) demo_store = Returns (JObj 0) st1
      ∧ (Some 5 ∉ listeners 0 "done" st1)
      ∧ unbind 0 (Some "done") (Some 5) st1 = Returns (JObj 0) st1.
Proof.
  assert (H1 : wf 0 demo_store = true) by (vm_compute; reflexivity).
  assert (H2 : "done" ≠ "") by discriminate.
  split; [exact H1|]. split; [exact H2|].
  exact (unbind_absent_is_noop 0 "done" 5 demo_store H1 H2).
Defined.






Lemma fst_calls (a : list value) (l : list nat) :
  (λ p : nat * list value, p.1) <$> ((λ c, (c, a)) <$> l) = l.
Proof. induction l as [|c l IH]; simpl; [done | by f_equal]. Qed.

(** X9. [emit] on the reserved name [ALL_EVENT] itself traverses the
    wildcard list twice: every wildcard listener is invoked on the
    arguments alone first, and when all of them have run, a second time on
    the reserved name followed by the arguments. *)
Theorem emit_reserved_name_invokes_twice
    (body : cb → list value → list action) (fuel : nat) (this : loc)
    (args : list value) (st : Store) :
  wf this st = true →
  quiet body args (listeners this ALL_EVENT st) →
  quiet body (VStr ALL_EVENT :: args) (listeners this ALL_EVENT st) →
  ∃ st',
    emit body (S fuel) this ALL_EVENT args st = Returns (JObj this) st'
    ∧ invoked st'
      = invoked st
        ++ ((λ c, (c, args)) <$> actives (listeners this ALL_EVENT st))
        ++ ((λ c, (c, VStr ALL_EVENT :: args))
              <$> actives (listeners this ALL_EVENT st))
    ∧ ∀ c, occurrences c (fst <$> drop (length (invoked st)) (invoked st'))
           = 2 * occurrences c (actives (listeners this ALL_EVENT st)).
Proof.
  intros [t H]%wf_Wf Hd Hw. unfold emit.
  destruct (trigger_quiet body fuel this ALL_EVENT args st t H Hd Hw)
    as (st' & E & _ & _ & I).
  exists st'. split_and!; [done | done |].
  intros c. rewrite I, drop_app_length, fmap_app, !fst_calls.
  unfold occurrences. rewrite filter_app, length_app. lia.
Qed.

Lemma emit_reserved_name_invokes_twice_witness :
  wf 0 demo_store = true
  ∧ quiet quiet_body [VNum 42] (listeners 0 ALL_EVENT demo_store)
  ∧ quiet quiet_body (VStr ALL_EVENT :: [VNum 42])
      (listeners 0 ALL_EVENT demo_store)
  ∧ ∃ st',
      emit quiet_body 1 0 ALL_EVENT [VNum 42] demo_store = Returns (JObj 0) st'
      ∧ invoked st'
        = invoked demo_store
          ++ ((λ c, (c, [VNum 42])) <$> actives (listeners 0 ALL_EVENT demo_store))
          ++ ((λ c, (c, VStr ALL_EVENT :: [VNum 42]))
                <$> actives (listeners 0 ALL_EVENT demo_store))
      ∧ ∀ c, occurrences c
               (fst <$> drop (length (invoked demo_store)) (invoked st'))
             = 2 * occurrences c (actives (listeners 0 ALL_EVENT demo_store)).
Proof.
  assert (H1 : wf 0 demo_store = true) by (vm_compute; reflexivity).
  assert (H2 : quiet quiet_body [VNum 42] (listeners 0 ALL_EVENT demo_store))
    by (intros c _; reflexivity).
  assert (H3 : quiet quiet_body (VStr ALL_EVENT :: [VNum 42])
                 (listeners 0 ALL_EVENT demo_store))
    by (intros c _; reflexivity).
  split; [exact H1|]. split; [exact H2|]. split; [exact H3|].
  exact (emit_reserved_name_invokes_twice quiet_body 0 0 [VNum 42]
           demo_store H1 H2 H3).
Defined.

(** * Objects without a listener map *)



(** * Listeners that call back into the dispatcher *)

Lemma listeners_cons_inv this e st s rest :
  listeners this e st = s :: rest →
  ∃ t a, get_callbacks this st = Some t
         ∧ table st t !! e = Some a
         ∧ arr st a = s :: rest.
Proof.
  unfold listeners, registrations.
  destruct (get_callbacks this st) as [t|]; [|by rewrite lookup_empty].
  rewrite lookup_fmap.
  destruct (table st t !! e) as [a|] eqn:Ha; [|done].
  simpl. intros E. exists t, a. by rewrite Ha.
Qed.

(** X11. [trigger] has no guard against re-entrance: when the first
    listener of an event fires that same event from inside its invocation,
    the call never returns, whatever depth of nesting is allowed. *)
Theorem refire_from_listener_never_returns
    (body : cb → list value → list action) (this : loc) (e : string)
    (c : cb) (rest : list slot) (st : Store) :
  listeners this e st = Some c :: rest →
  (∀ args, ∃ data acts, body c args = CallTrigger e data :: acts) →
  ∀ fuel data, trigger body fuel this e data st = OutOfFuel.
Proof.
  intros Hl Hbody fuel. revert st Hl.
  induction fuel as [|fuel IH]; intros st Hl data; [done|].
  destruct (listeners_cons_inv _ _ _ _ _ Hl) as (t & a & Hc & Ha & Harr).
  rewrite trigger_unfold, Hc, while_loop_S.
  change (if decide (1 = 0) then ALL_EVENT else e) with e.
  rewrite Ha, Harr. cbn [length for_loop]. rewrite Harr. cbn [lookup list_lookup].
  unfold apply.
  destruct (Hbody (drop (if decide (1 = 0) then 0 else 1) (VStr e :: data)))
    as (data' & acts & ->).
  cbn [run_body run_action]. rewrite IH; [done|].
  exact Hl.
Qed.

Lemma refire_from_listener_never_returns_witness :
  listeners 0 "done" demo_store = Some 1 :: [None; Some 2]
  ∧ (∀ args, ∃ data acts, refiring_body 1 args = CallTrigger "done" data :: acts)
  ∧ ∀ fuel data, trigger refiring_body fuel 0 "done" data demo_store = OutOfFuel.
Proof.
  assert (H1 : listeners 0 "done" demo_store = Some 1 :: [None; Some 2])
    by reflexivity.
  assert (H2 : ∀ args, ∃ data acts,
             refiring_body 1 args = CallTrigger "done" data :: acts)
    by (intros args; exists args, []; reflexivity).
  split; [exact H1|]. split; [exact H2|].
  exact (refire_from_listener_never_returns refiring_body 0 "done" 1
           [None; Some 2] demo_store H1 H2).
Defined.

Lemma addListener_existing this st t ev c a :
  Wf this st t → table st t !! ev = Some a →
  addListener this ev c st
  = Returns (JObj this) (set_array a (arr st a ++ [Some c]) st).
Proof.
  intros H Ha. rewrite addListener_ensure, (wf_callbacks _ _ _ H).
  unfold ensure_list. by rewrite Ha, (insert_id _ _ _ Ha), set_table_id.
Qed.

Lemma headbind_existing this st t ev c a :
  Wf this st t → table st t !! ev = Some a →
  headbind this ev c st
  = Returns (JObj this) (set_array a (Some c :: arr st a) st).
Proof.
  intros H Ha. rewrite headbind_ensure, (wf_callbacks _ _ _ H).
  unfold ensure_list. by rewrite Ha, (insert_id _ _ _ Ha), set_table_id.
Qed.

Lemma addListener_fresh this st t ev c :
  Wf this st t → table st t !! ev = None →
  addListener this ev c st
  = Returns (JObj this)
      (set_array (length (arrays st)) [Some c]
         (set_table t (<[ev := length (arrays st)]> (table st t))
            (alloc_array [] st).2)).
Proof.
  intros H Ha. rewrite addListener_ensure, (wf_callbacks _ _ _ H).
  assert (Hn : ∀ m, arr (set_table t m (alloc_array [] st).2)
                      (length (arrays st)) = []).
  { intros m. apply (arr_alloc_array_new st []). }
  unfold ensure_list. rewrite Ha. cbn [alloc_array fst snd] in *.
  by rewrite Hn.
Qed.





Section Registrations.

Variable body : cb → list value → list action.
Variable trig : loc → string → list value → Store → outcome.






End Registrations.


Section FireRegistrations.

Variable body : cb → list value → list action.


End FireRegistrations.




(** Listener 1 registers listener 7 for ["done"] while ["done"] is fired:
    7 does not run in this call. Listener 2 registers listener 8 on the
    wildcard channel before the wildcard pass begins: 8 does run. *)
Example register_during_fire_demo :
  fire registering_body 1 0 "done" [VNum 42] demo_store
  = Returns (JObj 0)
      (mkStore [[Some 1; Some 2; Some 7]; [Some 3; Some 8]; []]
         (tables demo_store) (proxies demo_store)
         [(1, [VNum 42]); (2, [VNum 42]);
          (3, [VStr "done"; VNum 42]); (8, [VStr "done"; VNum 42])]).
Proof. vm_compute. reflexivity. Qed.

Section Headbind.

Variable body : cb → list value → list action.
Variable trig : loc → string → list value → Store → outcome.

(** The pass over the list of [ev] once it has reached a listener [a] that
    registers [c] at the head of that same list: the index moves on by one,
    so does [a], and the loop is at [a] again. *)
Lemma for_loop_headbind this t ev lst both arguments a c rest todo k st :
  Wf this st t →
  table st t !! ev = Some lst →
  body a (pass_args both arguments) = [CallHeadbind ev c] →
  arr st lst = replicate k (Some c) ++ Some a :: rest →
  ∃ st',
    for_loop body trig this lst both arguments todo k st = Returns JUndefined st'
    ∧ Wf this st' t
    ∧ tables st' = tables st
    ∧ invoked st' = invoked st ++ replicate todo (a, pass_args both arguments)
    ∧ arr st' lst = replicate (k + todo) (Some c) ++ Some a :: rest
    ∧ ∀ b, b ≠ lst → arr st' b = arr st b.
Proof.
  intros H Ha Hbody. revert k st H Ha.
  induction todo as [|todo IH]; intros k st H Ha Harr.
  - exists st. simpl. rewrite app_nil_r, Nat.add_0_r. by split_and!.
  - cbn [for_loop]. rewrite Harr.
    rewrite (list_lookup_middle (replicate k (Some c)) rest (Some a) k)
      by by rewrite length_replicate.
    unfold apply. fold (pass_args both arguments).
    set (args := pass_args both arguments) in *.
    rewrite Hbody. cbn [run_body run_action].
    pose proof (Wf_record_call this st t a args H) as Hr.
    rewrite (headbind_existing this (record_call a args st) t ev c lst Hr Ha).
    change (arr (record_call a args st) lst) with (arr st lst).
    destruct (IH (S k) (set_array lst (Some c :: arr st lst) (record_call a args st)))
      as (st' & E & H' & T' & I' & A' & F').
    + by apply Wf_set_array.
    + done.
    + rewrite arr_set_array_eq by by eapply wf_arrays. by rewrite Harr.
    + exists st'. split_and!; [done | done | done | | |].
      * rewrite I'. simpl. by rewrite <- app_assoc.
      * rewrite A'. by replace (S k + todo) with (k + S todo) by lia.
      * intros b Hb. rewrite (F' b Hb).
        by rewrite arr_set_array_ne by done.
Qed.

End Headbind.

(** X13. A listener that calls [headbind] on the event being fired pushes
    itself one slot further, where the loop finds it again. When the first
    listener [a] of [e] registers a function at the head of [e] each time
    it runs, a [fire(e, ...)] invokes [a] once for every slot the list had
    when the call began and invokes no other listener of [e]; the functions
    registered are at the head of the list afterwards. The wildcard
    listeners run as usual. *)
Theorem headbind_during_fire_repeats_listener
    (body : cb → list value → list action) (fuel : nat) (this : loc)
    (e : string) (a c : cb) (rest : list slot) (args : list value)
    (st : Store) :
  wf this st = true →
  e ≠ ALL_EVENT →
  listeners this e st = Some a :: rest →
  body a args = [CallHeadbind e c] →
  quiet body (VStr e :: args) (listeners this ALL_EVENT st) →
  ∃ st',
    fire body (S fuel) this e args st = Returns (JObj this) st'
    ∧ invoked st'
      = invoked st
        ++ replicate (S (length rest)) (a, args)
        ++ ((λ c, (c, VStr e :: args)) <$> actives (listeners this ALL_EVENT st))
    ∧ listeners this e st'
      = replicate (S (length rest)) (Some c) ++ Some a :: rest.
Proof.
  intros [t H]%wf_Wf He Hl Hbody Hw.
  destruct (listeners_cons_inv _ _ _ _ _ Hl) as (t' & lst & Hc & Ha & Harr).
  rewrite (wf_callbacks _ _ _ H) in Hc. simplify_eq.
  unfold fire. rewrite trigger_unfold, (wf_callbacks _ _ _ H), while_loop_S.
  change (if decide (1 = 0) then ALL_EVENT else e) with e.
  rewrite Ha.
  destruct (for_loop_headbind body (trigger body fuel) this t' e lst 1
              (VStr e :: args) a c rest (length (arr st lst)) 0 st H Ha Hbody Harr)
    as (st1 & E1 & H1 & T1 & I1 & A1 & F1).
  rewrite E1.
  assert (L1 : listeners this ALL_EVENT st1 = listeners this ALL_EVENT st).
  { unfold listeners.
    rewrite (registrations_Wf _ _ _ H1), (registrations_Wf _ _ _ H).
    rewrite !lookup_fmap, (table_ext _ _ _ T1).
    destruct (table st t' !! ALL_EVENT) as [b|] eqn:Hb; [|done].
    simpl. rewrite F1; [done|]. intros ->. apply He.
    exact (wf_inj _ _ _ H _ _ _ Ha Hb). }
  assert (Hq : ∀ c0, Some c0 ∈ listeners this ALL_EVENT st1 →
                     body c0 (VStr e :: args) = [])
    by (rewrite L1; exact Hw).
  rewrite (while_step body (trigger body fuel) this t' e (VStr e :: args) 0 st1
             H1 Hq).
  change (if decide (0 = 0) then ALL_EVENT else e) with ALL_EVENT.
  change (pass_args 0 (VStr e :: args)) with (VStr e :: args).
  destruct (after_pass_spec this st1 t' ALL_EVENT (VStr e :: args) H1)
    as (H2 & R2 & I2).
  cbn [while_loop]. eexists. split_and!; [done | |].
  - rewrite I2, I1, L1, Harr, <- app_assoc. reflexivity.
  - rewrite (listeners_alter _ _ _ _ _ e R2), decide_False by done.
    rewrite (listeners_Wf _ _ _ _ _ H1) by by rewrite (table_ext _ _ _ T1).
    rewrite A1, Harr. reflexivity.
Qed.

Lemma headbind_during_fire_repeats_listener_witness :
  wf 0 demo_store = true
  ∧ "done" ≠ ALL_EVENT
  ∧ listeners 0 "done" demo_store = Some 1 :: [None; Some 2]
  ∧ headbinding_body 1 [VNum 42] = [CallHeadbind "done" 7]
  ∧ quiet headbinding_body (VStr "done" :: [VNum 42])
      (listeners 0 ALL_EVENT demo_store)
  ∧ ∃ st',
      fire headbinding_body 1 0 "done" [VNum 42] demo_store
      = Returns (JObj 0) st'
      ∧ invoked st'
        = invoked demo_store
          ++ replicate (S (length [None; Some 2])) (1, [VNum 42])
          ++ ((λ c, (c, VStr "done" :: [VNum 42]))
                <$> actives (listeners 0 ALL_EVENT demo_store))
      ∧ listeners 0 "done" st'
        = replicate (S (length [None; Some 2])) (Some 7)
          ++ Some 1 :: [None; Some 2].
Proof.
  assert (H1 : wf 0 demo_store = true) by (vm_compute; reflexivity).
  assert (H2 : "done" ≠ ALL_EVENT) by discriminate.
  assert (H3 : listeners 0 "done" demo_store = Some 1 :: [None; Some 2])
    by reflexivity.
  assert (H4 : headbinding_body 1 [VNum 42] = [CallHeadbind "done" 7])
    by reflexivity.
  assert (H5 : quiet headbinding_body (VStr "done" :: [VNum 42])
                 (listeners 0 ALL_EVENT demo_store)).
  { intros c Hc. destruct c as [|[|c]]; [reflexivity | | reflexivity].
    exfalso. vm_compute in Hc.
    inversion Hc as [|? ? ? Hc']. inversion Hc'. }
  split; [exact H1|]. split; [exact H2|]. split; [exact H3|].
  split; [exact H4|]. split; [exact H5|].
  exact (headbind_during_fire_repeats_listener headbinding_body 0 0 "done" 1 7
           [None; Some 2] [VNum 42] demo_store H1 H2 H3 H4 H5).
Defined.

(** The list is [1; null; 2]: listener 1 runs three times, listener 2 does
    not run. *)
Example headbind_during_fire_demo :
  fire headbinding_body 1 0 "done" [VNum 42] demo_store
  = Returns (JObj 0)
      (mkStore [[Some 7; Some 7; Some 7; Some 1; None; Some 2]; [Some 3]; []]
         (tables demo_store) (proxies demo_store)
         [(1, [VNum 42]); (1, [VNum 42]); (1, [VNum 42]);
          (3, [VStr "done"; VNum 42])]).
Proof. vm_compute. reflexivity. Qed.


Lemma table_app_old st t X :
  t < length (tables st) →
  default ∅ ((tables st ++ X) !! t) = table st t.
Proof. intros H. unfold table. by rewrite lookup_app_l. Qed.




Section Clears.

Variable body : cb → list value → list action.
Variable trig : loc → string → list value → Store → outcome.





End Clears.

Section FireClears.

Variable body : cb → list value → list action.


End FireClears.




(** Listener 1 removes all the listeners of ["done"] and listener 2 resets
    the dispatcher, both from inside [fire("done", 42)]: listener 2 and the
    wildcard listener 3 run all the same. The next [fire] invokes
    nothing. *)
Example clear_during_fire_demo :
  ∃ st',
    fire clearing_body 1 0 "done" [VNum 42] demo_store = Returns (JObj 0) st'
    ∧ invoked st'
      = [(1, [VNum 42]); (2, [VNum 42]); (3, [VStr "done"; VNum 42])]
    ∧ registrations 0 st' = ∅
    ∧ fire clearing_body 1 0 "done" [VNum 42] st' = Returns (JObj 0) st'.
Proof.
  eexists. split_and!; [vm_compute; reflexivity | reflexivity | | ];
    vm_compute; reflexivity.
Qed.

(** * What every call preserves *)



(** * Two dispatchers in one store *)

Lemma registrations_apart this that tq st0 st :
  apart this that tq st0 st →
  get_callbacks that st0 = Some tq →
  registrations that st = registrations that st0.
Proof.
  intros [_ _ Hthat _ Htab Harr _] Hq.
  assert (Hq' : get_callbacks that st = Some tq).
  { unfold get_callbacks in *. by rewrite Hthat. }
  assert (Ht : table st tq = table st0 tq) by (unfold table; by rewrite Htab).
  unfold registrations. rewrite Hq, Hq', Ht.
  apply map_fmap_ext. intros e a Ha. unfold arr.
  by rewrite (proj2 (Harr e a Ha)).
Qed.

Lemma apart_fresh this that tq st0 st e' :
  apart this that tq st0 st → table st0 tq !! e' ≠ Some (length (arrays st)).
Proof.
  intros H Ha. pose proof (proj1 (apart_arrays _ _ _ _ _ H _ _ Ha)). lia.
Qed.

Lemma apart_record_call this that tq st0 st c args :
  apart this that tq st0 st → apart this that tq st0 (record_call c args st).
Proof. by intros []. Qed.

Lemma apart_set_array this that tq st0 st a l :
  apart this that tq st0 st →
  (∀ e', table st0 tq !! e' ≠ Some a) →
  apart this that tq st0 (set_array a l st).
Proof.
  intros [H1 H2 H3 H4 H5 H6 H7] Ha. split; try done.
  intros e b Hb. destruct (H6 e b Hb) as [Hlt Heq]. simpl.
  rewrite length_insert. split; [done|].
  rewrite list_lookup_insert_ne; [done|]. intros ->. by apply (Ha e).
Qed.

Lemma apart_alloc_array this that tq st0 st l :
  apart this that tq st0 st → apart this that tq st0 (alloc_array l st).2.
Proof.
  intros [H1 H2 H3 H4 H5 H6 H7]. split; try done.
  intros e b Hb. destruct (H6 e b Hb) as [Hlt Heq]. simpl.
  rewrite length_app. split; [lia|]. by rewrite lookup_app_l.
Qed.

Lemma table_set_table st t m t' :
  table (set_table t m st) t'
  = if decide (t' = t ∧ t < length (tables st)) then m else table st t'.
Proof.
  unfold table. simpl. case_decide as Hd.
  - destruct Hd as [-> Hlt]. by rewrite list_lookup_insert_eq.
  - destruct (decide (t = t')) as [->|Hne].
    + rewrite list_insert_ge; [done|]. apply Nat.nlt_ge. intros ?. by apply Hd.
    + by rewrite list_lookup_insert_ne.
Qed.

Lemma apart_set_table this that tq st0 st t m :
  apart this that tq st0 st →
  t ≠ tq →
  (∀ e a e', m !! e = Some a → table st0 tq !! e' ≠ Some a) →
  apart this that tq st0 (set_table t m st).
Proof.
  intros [H1 H2 H3 H4 H5 H6 H7] Ht Hm. split; try done.
  - simpl. by rewrite length_insert.
  - simpl. by rewrite list_lookup_insert_ne.
  - intros t' e a e' Hne. rewrite table_set_table.
    case_decide; [by apply Hm | by apply H7].
Qed.

Lemma apart_alloc_table this that tq st0 st :
  apart this that tq st0 st → apart this that tq st0 (alloc_table ∅ st).2.
Proof.
  intros [H1 H2 H3 H4 H5 H6 H7]. split; try done.
  - simpl. rewrite length_app. lia.
  - simpl. by rewrite lookup_app_l.
  - intros t e a e' Hne. unfold table. simpl.
    destruct (decide (t < length (tables st))) as [Hlt|Hge].
    + rewrite lookup_app_l by done. by apply H7.
    + destruct (decide (t = length (tables st))) as [->|Hne'].
      * by rewrite (list_lookup_middle (tables st) [] _ _ eq_refl).
      * rewrite lookup_ge_None_2; [done|]. rewrite length_app. simpl. lia.
Qed.

Lemma apart_set_proxy this that tq st0 st o :
  apart this that tq st0 st →
  _callbacks o ≠ Some tq →
  apart this that tq st0 (set_proxy this o st).
Proof.
  intros [H1 H2 H3 H4 H5 H6 H7] Ho. split; try done.
  - unfold get_callbacks. simpl.
    destruct (decide (this < length (proxies st))).
    + by rewrite list_lookup_insert_eq.
    + rewrite list_insert_ge by lia. apply H2.
  - simpl. by rewrite list_lookup_insert_ne.
Qed.

Lemma Wf_apart_callbacks this that tq st0 st t :
  apart this that tq st0 st → Wf this st t → t ≠ tq.
Proof.
  intros H Hw ->. by apply (apart_callbacks _ _ _ _ _ H), (wf_callbacks _ _ _ Hw).
Qed.

Lemma headbind_fresh this st t ev c :
  Wf this st t → table st t !! ev = None →
  headbind this ev c st
  = Returns (JObj this)
      (set_array (length (arrays st)) [Some c]
         (set_table t (<[ev := length (arrays st)]> (table st t))
            (alloc_array [] st).2)).
Proof.
  intros H Ha. rewrite headbind_ensure, (wf_callbacks _ _ _ H).
  assert (Hn : ∀ m, arr (set_table t m (alloc_array [] st).2)
                      (length (arrays st)) = []).
  { intros m. apply (arr_alloc_array_new st []). }
  unfold ensure_list. rewrite Ha. cbn [alloc_array fst snd] in *.
  by rewrite Hn.
Qed.

Lemma removeListener_event_store this st t ev :
  Wf this st t → ev ≠ "" →
  removeListener this (Some ev) None st
  = Returns (JObj this)
      (set_table t (<[ev := length (arrays st)]> (table st t))
         (alloc_array [] st).2).
Proof.
  intros H Hev. destruct (Wf_proxy _ _ _ H) as (o & Ho & Hc).
  unfold removeListener, debug. rewrite Ho, Hc. by destruct ev.
Qed.

(** A new array under the name [ev] of the map of [this]. *)
Lemma apart_new_list this that tq st0 st t ev :
  apart this that tq st0 st → Wf this st t →
  apart this that tq st0
    (set_table t (<[ev := length (arrays st)]> (table st t))
       (alloc_array [] st).2).
Proof.
  intros H Hw. apply apart_set_table.
  - by apply apart_alloc_array.
  - by eapply Wf_apart_callbacks.
  - intros e a e'. rewrite lookup_insert. case_decide.
    + intros [= <-]. by eapply apart_fresh.
    + intros Ha. apply (apart_others _ _ _ _ _ H t e a e'); [|done].
      by eapply Wf_apart_callbacks.
Qed.

Lemma addListener_keeps_apart this that tq st0 ev c :
  keeps_apart this that tq st0 (addListener this ev c).
Proof.
  intros st st' [t Hw]%wf_Wf H.
  pose proof (Wf_apart_callbacks _ _ _ _ _ _ H Hw) as Ht.
  destruct (table st t !! ev) as [a|] eqn:Ha.
  - rewrite (addListener_existing _ _ _ _ _ _ Hw Ha). intros [= <-].
    apply apart_set_array; [done|].
    intros e'. by apply (apart_others _ _ _ _ _ H t ev a e').
  - rewrite (addListener_fresh _ _ _ _ _ Hw Ha). intros [= <-].
    apply apart_set_array; [by apply apart_new_list|].
    intros e'. by eapply apart_fresh.
Qed.

Lemma headbind_keeps_apart this that tq st0 ev c :
  keeps_apart this that tq st0 (headbind this ev c).
Proof.
  intros st st' [t Hw]%wf_Wf H.
  pose proof (Wf_apart_callbacks _ _ _ _ _ _ H Hw) as Ht.
  destruct (table st t !! ev) as [a|] eqn:Ha.
  - rewrite (headbind_existing _ _ _ _ _ _ Hw Ha). intros [= <-].
    apply apart_set_array; [done|].
    intros e'. by apply (apart_others _ _ _ _ _ H t ev a e').
  - rewrite (headbind_fresh _ _ _ _ _ Hw Ha). intros [= <-].
    apply apart_set_array; [by apply apart_new_list|].
    intros e'. by eapply apart_fresh.
Qed.

Lemma removeListener_keeps_apart this that tq st0 e c :
  keeps_apart this that tq st0 (removeListener this e c).
Proof.
  intros st st' Hwf H.
  destruct (wf_proxy _ _ Hwf) as [o Ho].
  destruct (wf_Wf _ _ Hwf) as [t Hw].
  pose proof (Wf_apart_callbacks _ _ _ _ _ _ H Hw) as Ht.
  assert (Hreset : e = None ∨ e = Some "" →
            final_store (removeListener this e c st) = Some st' →
            apart this that tq st0 st').
  { intros He. rewrite (removeListener_all this st o e c Ho He).
    intros [= <-]. apply apart_set_proxy; [by apply apart_alloc_table|].
    simpl. intros [= Hq]. pose proof (apart_table_len _ _ _ _ _ H). lia. }
  destruct e as [e|]; [|by apply Hreset; left].
  destruct (decide (e = "")) as [->|He]; [by apply Hreset; right|].
  destruct c as [c|].
  - destruct (removeListener_callback this st t e c Hw He) as (st1 & -> & _ & S1 & _).
    intros [= <-]. rewrite S1.
    destruct (table st t !! e) as [a|] eqn:Ha; [|done].
    apply apart_set_array; [done|].
    intros e'. by apply (apart_others _ _ _ _ _ H t e a e').
  - rewrite (removeListener_event_store _ _ _ _ Hw He). intros [= <-].
    by apply apart_new_list.
Qed.

Lemma bindForAll_keeps_apart this that tq st0 c :
  keeps_apart this that tq st0 (bindForAll this c).
Proof.
  intros st st' Hwf H E.
  apply (addListener_keeps_apart this that tq st0 ALL_EVENT c st st' Hwf H).
  by rewrite <- (proj1 (forAll_wrappers_final_store this c None st)).
Qed.

Lemma unbindForAll_keeps_apart this that tq st0 c :
  keeps_apart this that tq st0 (unbindForAll this c).
Proof.
  intros st st' Hwf H E.
  apply (removeListener_keeps_apart this that tq st0 (Some ALL_EVENT) c st st' Hwf H).
  by rewrite <- (proj2 (forAll_wrappers_final_store this 0 c st)).
Qed.

Section Apart.

Variable body : cb → list value → list action.
Variable trig : loc → string → list value → Store → outcome.
Variables this that tq : loc.
Variable st0 : Store.
Hypothesis trig_keeps_wf : ∀ ev data, keeps_wf this (trig this ev data).
Hypothesis trig_keeps_apart :
  ∀ ev data, keeps_apart this that tq st0 (trig this ev data).

Lemma run_action_keeps_apart act :
  keeps_apart this that tq st0 (run_action trig this act).
Proof.
  destruct act; simpl.
  - apply addListener_keeps_apart.
  - apply headbind_keeps_apart.
  - apply removeListener_keeps_apart.
  - apply removeListener_keeps_apart.
  - apply bindForAll_keeps_apart.
  - apply unbindForAll_keeps_apart.
  - apply trig_keeps_apart.
  - by intros st st' Hwf H [= <-].
Qed.

Lemma run_body_keeps_apart acts :
  keeps_apart this that tq st0 (run_body trig this acts).
Proof.
  induction acts as [|act acts IH]; intros st st' Hwf H; simpl.
  - by intros [= <-].
  - pose proof (run_action_keeps_apart act st) as Hact.
    pose proof (run_action_keeps_wf trig this trig_keeps_wf act st) as Hact'.
    destruct (run_action trig this act st) as [v st1|st1|]; simpl in *.
    + intros E. apply (IH st1 st'); [by apply Hact' | by apply Hact | done].
    + intros [= <-]. by apply Hact.
    + done.
Qed.

Lemma for_loop_keeps_apart lst both arguments todo i :
  (∀ e', table st0 tq !! e' ≠ Some lst) →
  keeps_apart this that tq st0 (for_loop body trig this lst both arguments todo i).
Proof.
  intros Hlst. revert i.
  induction todo as [|todo IH]; intros i st st' Hwf H; simpl.
  - by intros [= <-].
  - destruct (arr st lst !! i) as [[c|]|].
    + unfold apply.
      pose proof (run_body_keeps_apart
                    (body c (drop (if decide (both = 0) then 0 else 1) arguments))
                    (record_call c
                       (drop (if decide (both = 0) then 0 else 1) arguments) st))
        as Hrun.
      pose proof (run_body_keeps_wf trig this trig_keeps_wf
                    (body c (drop (if decide (both = 0) then 0 else 1) arguments))
                    (record_call c
                       (drop (if decide (both = 0) then 0 else 1) arguments) st))
        as Hrun'.
      destruct (run_body trig this _ _) as [v st1|st1|]; simpl in *.
      * apply IH; [apply Hrun'; [by apply wf_record_call | done]|].
        apply Hrun; [by apply wf_record_call | by apply apart_record_call | done].
      * intros [= <-].
        apply Hrun; [by apply wf_record_call | by apply apart_record_call | done].
      * done.
    + apply IH; [by apply wf_set_array | by apply apart_set_array].
    + apply IH; [by apply wf_set_array | by apply apart_set_array].
Qed.

Lemma while_loop_keeps_apart calls ev arguments both :
  calls ≠ tq →
  keeps_apart this that tq st0 (while_loop body trig this calls ev arguments both).
Proof.
  intros Hcalls. induction both as [|both IH]; intros st st' Hwf H.
  - by intros [= <-].
  - rewrite while_loop_S.
    destruct (table st calls !! _) as [lst|] eqn:Hl; [|by apply IH].
    assert (Hlst : ∀ e', table st0 tq !! e' ≠ Some lst).
    { intros e'. by eapply (apart_others _ _ _ _ _ H calls _ lst e'). }
    pose proof (for_loop_keeps_apart lst both arguments (length (arr st lst)) 0
                  Hlst st) as Hfor.
    pose proof (for_loop_keeps_wf body trig this trig_keeps_wf lst both arguments
                  (length (arr st lst)) 0 st) as Hfor'.
    destruct (for_loop body trig this lst both arguments _ 0 st)
      as [v st1|st1|]; simpl in *.
    + apply IH; [by apply Hfor' | by apply Hfor].
    + intros [= <-]. by apply Hfor.
    + done.
Qed.

End Apart.

(** Firing on one dispatcher leaves another one out of its reach, whatever
    the listeners do and however the call ends. *)
Lemma trigger_keeps_apart body fuel this that tq st0 ev data :
  keeps_apart this that tq st0 (trigger body fuel this ev data).
Proof.
  revert ev data. induction fuel as [|fuel IH]; intros ev data st st' Hwf H.
  - done.
  - rewrite trigger_unfold.
    destruct (get_callbacks this st) as [calls|] eqn:Hc; [|by intros [= <-]].
    assert (Hcalls : calls ≠ tq).
    { intros ->. by apply (apart_callbacks _ _ _ _ _ H). }
    pose proof (while_loop_keeps_apart body (trigger body fuel) this that tq st0
                  (λ ev data, trigger_keeps_wf body fuel this ev data) IH
                  calls ev (VStr ev :: data) 2 Hcalls st) as Hw.
    destruct (while_loop body (trigger body fuel) this calls ev _ 2 st)
      as [v st1|st1|]; simpl in *.
    + intros [= <-]. by apply Hw.
    + intros [= <-]. by apply Hw.
    + done.
Qed.

Lemma apart_two_dispatchers : apart 0 1 2 two_dispatchers two_dispatchers.
Proof.
  split; try done.
  - simpl. lia.
  - intros e a Ha. split; [|done].
    change (table two_dispatchers 2) with ({["a" := 1]} : gmap string loc) in Ha.
    apply lookup_singleton_Some in Ha as [_ <-]. simpl. lia.
  - intros t e a e' Ht Ha Ha'.
    change (table two_dispatchers 2) with ({["a" := 1]} : gmap string loc) in Ha'.
    apply lookup_singleton_Some in Ha' as [_ <-].
    destruct t as [|[|[|[|t]]]]; [| | done | |].
    + change (table two_dispatchers 0) with ({["a" := 0]} : gmap string loc) in Ha.
      by apply lookup_singleton_Some in Ha as [_ ?].
    + change (table two_dispatchers 1) with (∅ : gmap string loc) in Ha.
      by rewrite lookup_empty in Ha.
    + change (table two_dispatchers 3) with (∅ : gmap string loc) in Ha.
      by rewrite lookup_empty in Ha.
    + change (table two_dispatchers (S (S (S (S t))))) with (∅ : gmap string loc) in Ha.
      by rewrite lookup_empty in Ha.
Qed.

(** X16. Two dispatchers that share no map and no listener array do not
    interfere: whatever is called on one of them ([addListener], [headbind],
    [removeListener], [removeAllListeners], [bindForAll], [unbindForAll],
    [trigger], a listener that throws), whatever its listeners do in turn
    and however the call ends, the registrations of the other one are what
    they were, and the two still share nothing. *)
Theorem other_dispatcher_is_untouched
    (body : cb → list value → list action) (fuel : nat) (this that tq : loc)
    (act : action) (st st' : Store) :
  wf this st = true →
  get_callbacks that st = Some tq →
  apart this that tq st st →
  final_store (run_action (trigger body fuel) this act st) = Some st' →
  registrations that st' = registrations that st ∧ apart this that tq st st'.
Proof.
  intros Hwf Hq H E.
  assert (H' : apart this that tq st st').
  { apply (run_action_keeps_apart (trigger body fuel) this that tq st
             (λ ev data, trigger_keeps_apart body fuel this that tq st ev data)
             act st st' Hwf H E). }
  split; [|done]. exact (registrations_apart this that tq st st' H' Hq).
Qed.

Lemma other_dispatcher_is_untouched_witness :
  wf 0 two_dispatchers = true ∧
  get_callbacks 1 two_dispatchers = Some 2 ∧
  apart 0 1 2 two_dispatchers two_dispatchers ∧
  ∃ st',
    final_store (run_action (trigger busy_body 3) 0 (CallTrigger "a" [])
                   two_dispatchers) = Some st' ∧
    registrations 0 st' ≠ registrations 0 two_dispatchers ∧
    registrations 1 st' = registrations 1 two_dispatchers ∧
    apart 0 1 2 two_dispatchers st'.
Proof.
  assert (H1 : wf 0 two_dispatchers = true) by (vm_compute; reflexivity).
  split; [exact H1|]. split; [reflexivity|].
  split; [exact apart_two_dispatchers|].
  destruct (final_store (run_action (trigger busy_body 3) 0 (CallTrigger "a" [])
                           two_dispatchers)) as [st'|] eqn:E;
    [|vm_compute in E; discriminate E].
  exists st'. split; [reflexivity|]. split.
  - intros Heq. vm_compute in E. injection E as <-.
    apply (f_equal (λ m : gmap string (list slot), m !! "a")) in Heq.
    vm_compute in Heq. discriminate Heq.
  - exact (other_dispatcher_is_untouched busy_body 3 0 1 2 (CallTrigger "a" [])
             two_dispatchers st' H1 eq_refl apart_two_dispatchers E).
Defined.
